(** * CNStorageEngine: a registry of lazily opened, idle-swept key/value stores

    Shallow embedding of the class [CNStorageEngine] (TypeScript, built on
    cn-shell, levelup and leveldown) and the properties of its store
    lifecycle: lookup-or-create ([getStore]), the CRUD delegation
    ([get], [write], [del]), the idle sweep ([checkStorage]), the
    lifecycle calls ([start], [stop]) and the read and delete routes.

    Every [async] method is run to completion: the development is about
    sequential execution, one call at a time, with the clock reading and the
    outcome of each persistence call supplied by the environment. *)

From Stdlib Require Import ZArith Lia Ascii.
From stdpp Require Import gmap strings list.

(** ** JavaScript numbers, as far as the engine uses them

    [_keepOpenInterval] is [parseInt(cfg, 10) * 1000]: an integer or [NaN].
    Clock readings ([Date.now()]) are integers. *)
Module JsNumber.

Inductive number : Type :=
| NaN
| Num (z : Z).

(** [a * b] *)
Definition mul (a b : number) : number :=
  match a, b with
  | Num x, Num y => Num (x * y)
  | _, _ => NaN
  end.

(** [a > b]: false as soon as one side is [NaN]. *)
Definition gt (a b : number) : bool :=
  match a, b with
  | Num x, Num y => bool_decide (y < x)%Z
  | _, _ => false
  end.

(** [a !== b]: [NaN] differs from everything, itself included. *)
Definition strict_ne (a b : number) : bool :=
  match a, b with
  | Num x, Num y => bool_decide (x ≠ y)
  | _, _ => true
  end.

End JsNumber.
Export JsNumber.

(** ** JavaScript [Map], keyed by strings

    A [Map] iterates in insertion order, so it is kept as an association
    list: [set] on a present key replaces the value where it stands, [set]
    on a new key appends, [delete] drops the key. *)
Module JsMap.
Section JsMap.
Context {V : Type}.

Fixpoint get (k : string) (m : list (string * V)) : option V :=
  match m with
  | [] => None
  | (k', v) :: m' => if decide (k' = k) then Some v else get k m'
  end.

Fixpoint set (k : string) (v : V) (m : list (string * V)) : list (string * V) :=
  match m with
  | [] => [(k, v)]
  | (k', v') :: m' =>
      if decide (k' = k) then (k, v) :: m' else (k', v') :: set k v m'
  end.

Fixpoint delete (k : string) (m : list (string * V)) : list (string * V) :=
  match m with
  | [] => []
  | (k', v') :: m' =>
      if decide (k' = k) then delete k m' else (k', v') :: delete k m'
  end.

Definition keys (m : list (string * V)) : list string := m.*1.
Definition values (m : list (string * V)) : list V := m.*2.
End JsMap.
End JsMap.

(** ** JavaScript strings: [String.prototype.split] with a one-character
    separator. The result is never empty; every occurrence of the separator
    cuts. *)
Module JsString.

Fixpoint split (sep : ascii) (s : string) : list string :=
  match s with
  | EmptyString => [EmptyString]
  | String c rest =>
      if decide (c = sep) then EmptyString :: split sep rest
      else match split sep rest with
           | [] => [String c EmptyString]
           | part :: parts => String c part :: parts
           end
  end.

End JsString.

(** ** Errors, results and the event log *)

Inductive DbError : Type :=
| NotFoundError
| NotOpenError
| IOError (msg : string).

(** The [HttpError] objects the routes throw. *)
Record HttpError : Type := { status : Z; message : string }.

Inductive Exn : Type :=
| DbExn (e : DbError)
| HttpExn (e : HttpError).

(** Outcome of awaiting a promise of the persistence layer. *)
Inductive Promise (A : Type) : Type :=
| Resolved (a : A)
| Rejected (e : DbError).
Arguments Resolved {A} a.
Arguments Rejected {A} e.

(** Outcome of a method of the engine: it returns (its promise fulfils) or it
    throws (its promise rejects). *)
Inductive Result (A : Type) : Type :=
| Returned (a : A)
| Thrown (e : Exn).
Arguments Returned {A} a.
Arguments Thrown {A} e.

(** What the engine does to the outside: log lines and calls on handles. *)
Inductive Event : Type :=
| LogInfo (fmt arg : string)
| LogError (fmt : string) (e : DbError) (key name : string)
| DbOpen (h : nat) (loc : string)
| DbGet (h : nat) (key : string)
| DbPut (h : nat) (key value : string)
| DbDel (h : nat) (key : string)
| DbClose (h : nat).

Global Instance DbError_eq_dec : EqDecision DbError.
Proof. solve_decision. Defined.
Global Instance Event_eq_dec : EqDecision Event.
Proof. solve_decision. Defined.

(** ** Data *)

(** [interface StoreDetails]; [db] is a reference to a levelup object, here
    its index in the table of handles. *)
Record StoreDetails : Type := {
  lastAccessed : Z;
  name : string;
  db : nat;
}.

(** A levelup object: the directory it persists to and whether it is open. *)
Record Handle : Type := {
  location : string;
  isOpen : bool;
}.

(** A handle once closed. *)
Definition closeH (hd : Handle) : Handle :=
  {| location := location hd; isOpen := false |}.

(** The engine object together with the part of the runtime it acts on. *)
Record World : Type := {
  (* fields of the class *)
  _storageDir : string;
  _keepOpenInterval : number;
  _closeStorageTimer : option nat;
  _stores : list (string * StoreDetails);
  (* runtime *)
  handles : list Handle;
  disk : gmap string (gmap string string);
  notFoundRejects : bool;
  intervals : list (option number);
  log : list Event;
}.

Definition with_stores (m : list (string * StoreDetails)) (w : World) : World :=
  {| _storageDir := _storageDir w; _keepOpenInterval := _keepOpenInterval w;
     _closeStorageTimer := _closeStorageTimer w; _stores := m;
     handles := handles w; disk := disk w; notFoundRejects := notFoundRejects w;
     intervals := intervals w; log := log w |}.

Definition with_handles (hs : list Handle) (w : World) : World :=
  {| _storageDir := _storageDir w; _keepOpenInterval := _keepOpenInterval w;
     _closeStorageTimer := _closeStorageTimer w; _stores := _stores w;
     handles := hs; disk := disk w; notFoundRejects := notFoundRejects w;
     intervals := intervals w; log := log w |}.

Definition with_disk (d : gmap string (gmap string string)) (w : World) : World :=
  {| _storageDir := _storageDir w; _keepOpenInterval := _keepOpenInterval w;
     _closeStorageTimer := _closeStorageTimer w; _stores := _stores w;
     handles := handles w; disk := d; notFoundRejects := notFoundRejects w;
     intervals := intervals w; log := log w |}.

Definition with_timer (t : option nat) (ivs : list (option number)) (w : World) : World :=
  {| _storageDir := _storageDir w; _keepOpenInterval := _keepOpenInterval w;
     _closeStorageTimer := t; _stores := _stores w;
     handles := handles w; disk := disk w; notFoundRejects := notFoundRejects w;
     intervals := ivs; log := log w |}.

(** Append one event to the log (oldest first). *)
Definition emit (e : Event) (w : World) : World :=
  {| _storageDir := _storageDir w; _keepOpenInterval := _keepOpenInterval w;
     _closeStorageTimer := _closeStorageTimer w; _stores := _stores w;
     handles := handles w; disk := disk w; notFoundRejects := notFoundRejects w;
     intervals := intervals w; log := log w ++ [e] |}.

(** ** The persistence layer

    [db: any] in the source is a levelup object over leveldown; the code of
    these packages is not part of the repository. The handle is modelled by
    its contract: one namespace per directory; asynchronous get, put, delete
    and close; a call fails when the environment makes it fail ([fault]) or
    when the handle is not open. Values are kept as the strings written:
    what [get] resolves to is a buffer whose [toString()] is that string. *)
Module Persistence.

(** Modelled from the spec: [levelup(leveldown(loc))] constructs a new
    persistence handle rooted at [loc]; construction does not fail. *)
Definition levelup (loc : string) (w : World) : nat * World :=
  let h := length (handles w) in
  (h, emit (DbOpen h loc)
        (with_handles (handles w ++ [{| location := loc; isOpen := true |}]) w)).

(** The directory of an open handle. *)
Definition open_at (h : nat) (w : World) : option string :=
  match handles w !! h with
  | Some hd => if isOpen hd then Some (location hd) else None
  | None => None
  end.

(** What is stored under a directory. *)
Definition contents (loc : string) (w : World) : gmap string string :=
  default ∅ (disk w !! loc).

(** Modelled from the spec: [handle.get(key)] of the persistence handle. It
    resolves to the value stored under the key; an absent key is a defined
    outcome, which the layer reports either as a rejection with
    [NotFoundError] (levelup's way) or as an undefined value, by
    [notFoundRejects]. *)
Definition db_get (fault : option DbError) (h : nat) (key : string) (w : World)
  : Promise (option string) * World :=
  let w := emit (DbGet h key) w in
  match fault with
  | Some e => (Rejected e, w)
  | None =>
      match open_at h w with
      | None => (Rejected NotOpenError, w)
      | Some loc =>
          match contents loc w !! key with
          | Some v => (Resolved (Some v), w)
          | None =>
              if notFoundRejects w then (Rejected NotFoundError, w)
              else (Resolved None, w)
          end
      end
  end.

(** Modelled from the spec: [handle.put(key, value)] of the persistence
    handle; the value is stored under the key in the handle's directory. *)
Definition db_put (fault : option DbError) (h : nat) (key value : string) (w : World)
  : Promise unit * World :=
  let w := emit (DbPut h key value) w in
  match fault with
  | Some e => (Rejected e, w)
  | None =>
      match open_at h w with
      | None => (Rejected NotOpenError, w)
      | Some loc =>
          (Resolved tt, with_disk (<[loc := <[key := value]> (contents loc w)]> (disk w)) w)
      end
  end.

(** Modelled from the spec: [handle.del(key)] of the persistence handle;
    delete is idempotent, an absent key is no failure. *)
Definition db_del (fault : option DbError) (h : nat) (key : string) (w : World)
  : Promise unit * World :=
  let w := emit (DbDel h key) w in
  match fault with
  | Some e => (Rejected e, w)
  | None =>
      match open_at h w with
      | None => (Rejected NotOpenError, w)
      | Some loc =>
          (Resolved tt, with_disk (<[loc := delete key (contents loc w)]> (disk w)) w)
      end
  end.

(** Modelled from the spec: [handle.close()] of the persistence handle.
    Closing marks the handle closed; a close that fails leaves it as it
    was. *)
Definition db_close (fault : option DbError) (h : nat) (w : World)
  : Promise unit * World :=
  let w := emit (DbClose h) w in
  match fault with
  | Some e => (Rejected e, w)
  | None => (Resolved tt, with_handles (alter closeH h (handles w)) w)
  end.

End Persistence.
Export Persistence.

(** ** The class *)
Module CNStorageEngine.

(** [`${this._storageDir}/${name}`] *)
Definition storePath (dir name : string) : string := dir +:+ "/" +:+ name.

(** [this.info(fmt, arg)] and [this.error(fmt, e, key, name)] of cn-shell. *)
Definition info (fmt arg : string) (w : World) : World := emit (LogInfo fmt arg) w.
Definition error (fmt : string) (e : DbError) (key name : string) (w : World) : World :=
  emit (LogError fmt e key name) w.

(** [setInterval(cb, delay)], the callback being [() => this.checkStorage()]:
    a new armed timer; and [clearInterval(t)], which disarms it
    ([clearInterval(undefined)] does nothing). *)
Definition setInterval (delay : number) (w : World) : nat * World :=
  (length (intervals w),
   with_timer (_closeStorageTimer w) (intervals w ++ [Some delay]) w).

Definition clearInterval (t : option nat) (w : World) : World :=
  match t with
  | Some i => with_timer (_closeStorageTimer w) (<[i := None]> (intervals w)) w
  | None => w
  end.

(** [constructor]: [storageDir] and [keepOpenInterval] are the two
    configuration strings, [parsed] is [parseInt(keepOpenInterval, 10)], taken
    as given; the disk is
    whatever earlier runs left under the storage directory. *)
Definition constructor (storageDir keepOpenInterval : string) (parsed : number)
    (disk0 : gmap string (gmap string string)) (nfr : bool) : World :=
  let w :=
    {| _storageDir := storageDir;
       _keepOpenInterval := JsNumber.mul parsed (Num 1000);
       _closeStorageTimer := None;
       _stores := [];
       handles := []; disk := disk0; notFoundRejects := nfr;
       intervals := []; log := [] |} in
  let w := info "Setting storage directory to (%s)" storageDir w in
  info "Setting keep open interval to %ds" keepOpenInterval w.

(** [start()] *)
Definition start (w : World) : Result bool * World :=
  if JsNumber.strict_ne (_keepOpenInterval w) (Num 0) then
    let '(t, w1) := setInterval (_keepOpenInterval w) w in
    (Returned true, with_timer (Some t) (intervals w1) w1)
  else (Returned true, w).

(** The loop of [stop()]: [closeFault h] is what the environment makes of the
    close of handle [h]. An awaited rejection leaves the loop and the method. *)
Fixpoint stop_loop (closeFault : nat → option DbError)
    (vs : list StoreDetails) (w : World) : Result unit * World :=
  match vs with
  | [] => (Returned tt, w)
  | v :: rest =>
      let w1 := info "Closing Storage (%s)" (name v) w in
      match db_close (closeFault (db v)) (db v) w1 with
      | (Rejected e, w2) => (Thrown (DbExn e), w2)
      | (Resolved _, w2) => stop_loop closeFault rest w2
      end
  end.

(** [stop()] *)
Definition stop (closeFault : nat → option DbError) (w : World) : Result unit * World :=
  let w1 := clearInterval (_closeStorageTimer w) w in
  stop_loop closeFault (JsMap.values (_stores w1)) w1.

(** [healthCheck()] *)
Definition healthCheck (w : World) : Result bool * World := (Returned true, w).

(** First loop of [checkStorage()]: the stores not accessed in the allotted
    interval, in the order of the map. *)
Definition idle (now : Z) (interval : number) (v : StoreDetails) : bool :=
  JsNumber.gt (Num (now - lastAccessed v)) interval.

Fixpoint select_closed (now : Z) (interval : number)
    (vs : list StoreDetails) : list StoreDetails :=
  match vs with
  | [] => []
  | v :: rest =>
      if idle now interval v then v :: select_closed now interval rest
      else select_closed now interval rest
  end.

(** Second loop of [checkStorage()]: close, then remove by name. *)
Fixpoint close_loop (closeFault : nat → option DbError)
    (closed : list StoreDetails) (w : World) : Result unit * World :=
  match closed with
  | [] => (Returned tt, w)
  | details :: rest =>
      let w1 := info "Closing storage (%s)" (name details) w in
      match db_close (closeFault (db details)) (db details) w1 with
      | (Rejected e, w2) => (Thrown (DbExn e), w2)
      | (Resolved _, w2) =>
          close_loop closeFault rest
            (with_stores (JsMap.delete (name details) (_stores w2)) w2)
      end
  end.

(** [checkStorage()], [now] being [Date.now()]. *)
Definition checkStorage (closeFault : nat → option DbError) (now : Z) (w : World)
  : Result unit * World :=
  let closed := select_closed now (_keepOpenInterval w) (JsMap.values (_stores w)) in
  close_loop closeFault closed w.

(** [details.lastAccessed = now] *)
Definition set_lastAccessed (now : Z) (details : StoreDetails) : StoreDetails :=
  {| lastAccessed := now; name := name details; db := db details |}.

(** [getStore(name)], [now] being [Date.now()]. The details object found in
    the map is updated where it stands. *)
Definition getStore (now : Z) (name : string) (w : World) : StoreDetails * World :=
  match JsMap.get name (_stores w) with
  | Some details =>
      let details := set_lastAccessed now details in
      (details, with_stores (JsMap.set name details (_stores w)) w)
  | None =>
      let w1 := info "Creating/Opening storage (%s)" name w in
      let '(h, w2) := levelup (storePath (_storageDir w1) name) w1 in
      let details := {| lastAccessed := now; name := name; db := h |} in
      (details, with_stores (JsMap.set name details (_stores w2)) w2)
  end.

(** [get(name, key)]: [None] is [null]. [fault] is what the environment makes
    of the persistence call. *)
Definition get (fault : option DbError) (now : Z) (name key : string) (w : World)
  : Result (option string) * World :=
  let '(store, w1) := getStore now name w in
  match db_get fault (db store) key w1 with
  | (Rejected e, w2) =>
      (Returned None,
       error "Error (%s) while attempting to get key (%s) from store (%s)" e key name w2)
  | (Resolved None, w2) => (Returned None, w2)
  | (Resolved (Some value), w2) => (Returned (Some value), w2)
  end.

(** [write(name, key, value)] *)
Definition write (fault : option DbError) (now : Z) (name key value : string) (w : World)
  : Result bool * World :=
  let '(store, w1) := getStore now name w in
  match db_put fault (db store) key value w1 with
  | (Rejected e, w2) =>
      (Returned false,
       error "Error (%s) while attempting to write key (%s) from store (%s)" e key name w2)
  | (Resolved _, w2) => (Returned true, w2)
  end.

(** [del(name, key)] *)
Definition del (fault : option DbError) (now : Z) (name key : string) (w : World)
  : Result bool * World :=
  let '(store, w1) := getStore now name w in
  match db_del fault (db store) key w1 with
  | (Rejected e, w2) =>
      (Returned false,
       error "Error (%s) while attempting to delete key (%s) from store (%s)" e key name w2)
  | (Resolved _, w2) => (Returned true, w2)
  end.

(** *** Routes

    The callbacks registered by [setupCreateRoute], [setupReadRoute] and
    [setupDeleteRoute]. A field or an id that is [undefined] is [None]. *)

Record Body : Type := {
  body_name : option string;
  body_key : option string;
  body_value : option string;
}.

Definition setupCreateRoute_cb (fault : option DbError) (now : Z) (body : Body) (w : World)
  : Result string * World :=
  match body_name body, body_key body, body_value body with
  | Some n, Some k, Some v =>
      match write fault now n k v w with
      | (Returned false, w1) =>
          (Thrown (HttpExn {| status := 500; message := "Ooops - we have had a problem!" |}), w1)
      | (Returned true, w1) => (Returned (n +:+ ":" +:+ k), w1)
      | (Thrown e, w1) => (Thrown e, w1)
      end
  | _, _, _ => (Thrown (HttpExn {| status := 404; message := "Body invalid!" |}), w)
  end.

Definition setupReadRoute_cb (fault : option DbError) (now : Z) (id : option string) (w : World)
  : Result string * World :=
  match id with
  | None => (Thrown (HttpExn {| status := 404; message := "No ID specified!" |}), w)
  | Some id =>
      let parts := JsString.split ":"%char id in
      match parts !! 0%nat, parts !! 1%nat with
      | Some p0, Some p1 =>
          match get fault now p0 p1 w with
          | (Returned None, w1) =>
              (Thrown (HttpExn {| status := 404; message := "Ooops - can't find that key!" |}), w1)
          | (Returned (Some value), w1) => (Returned value, w1)
          | (Thrown e, w1) => (Thrown e, w1)
          end
      | _, _ => (Thrown (HttpExn {| status := 404; message := "Invalid ID!" |}), w)
      end
  end.

Definition setupDeleteRoute_cb (fault : option DbError) (now : Z) (id : option string) (w : World)
  : Result unit * World :=
  match id with
  | None => (Thrown (HttpExn {| status := 404; message := "Invalid ID!" |}), w)
  | Some id =>
      let parts := JsString.split ":"%char id in
      match parts !! 0%nat, parts !! 1%nat with
      | Some p0, Some p1 =>
          match del fault now p0 p1 w with
          | (Returned false, w1) =>
              (Thrown (HttpExn {| status := 500; message := "Ooops - we have had a problem" |}), w1)
          | (Returned true, w1) => (Returned tt, w1)
          | (Thrown e, w1) => (Thrown e, w1)
          end
      | _, _ => (Thrown (HttpExn {| status := 404; message := "Invalid ID" |}), w)
      end
  end.

(** *** The event loop

    What can happen to a constructed engine, one thing at a time: a public
    call, or the firing of timer [t], which runs the sweep when [t] is armed
    and nothing otherwise. *)
Inductive Action : Type :=
| CallGet (fault : option DbError) (now : Z) (name key : string)
| CallWrite (fault : option DbError) (now : Z) (name key value : string)
| CallDel (fault : option DbError) (now : Z) (name key : string)
| CallStart
| CallStop (closeFault : nat → option DbError)
| TimerFires (t : nat) (closeFault : nat → option DbError) (now : Z).

Definition perform (a : Action) (w : World) : World :=
  match a with
  | CallGet fault now n k => (get fault now n k w).2
  | CallWrite fault now n k v => (write fault now n k v w).2
  | CallDel fault now n k => (del fault now n k w).2
  | CallStart => (start w).2
  | CallStop closeFault => (stop closeFault w).2
  | TimerFires t closeFault now =>
      match intervals w !! t with
      | Some (Some _) => (checkStorage closeFault now w).2
      | _ => w
      end
  end.

Fixpoint run (acts : list Action) (w : World) : World :=
  match acts with
  | [] => w
  | a :: rest => run rest (perform a w)
  end.

Definition is_stop (a : Action) : bool :=
  match a with CallStop _ => true | _ => false end.

End CNStorageEngine.
Import CNStorageEngine.

(** ** The routes of [src/main.ts]

    The other version of the class: same fields and methods, no delete route,
    a create route that answers the key alone, and a read route that takes
    the key as the id and the store from the query string. A query value is
    a string, or an array when the parameter is given more than once. *)
Module MainTs.

Inductive QueryValue : Type :=
| QString (s : string)
| QArray (l : list string).

Definition QRY_STRING_STORE : string := "store".

Definition setupCreateRoute_cb (fault : option DbError) (now : Z) (body : Body) (w : World)
  : Result string * World :=
  match body_name body, body_key body, body_value body with
  | Some n, Some k, Some v =>
      match write fault now n k v w with
      | (Returned false, w1) =>
          (Thrown (HttpExn {| status := 500; message := "Ooops - we have had a problem!" |}), w1)
      | (Returned true, w1) => (Returned k, w1)
      | (Thrown e, w1) => (Thrown e, w1)
      end
  | _, _, _ => (Thrown (HttpExn {| status := 404; message := "Body invalid!" |}), w)
  end.

Definition setupReadRoute_cb (fault : option DbError) (now : Z)
    (id : option string) (query : option (gmap string QueryValue)) (w : World)
  : Result string * World :=
  match id with
  | None => (Thrown (HttpExn {| status := 404; message := "No ID specified!" |}), w)
  | Some id =>
      match query ≫= (λ q, q !! QRY_STRING_STORE) with
      | None => (Thrown (HttpExn {| status := 400; message := "No store specified!" |}), w)
      | Some (QArray _) =>
          (Thrown (HttpExn {| status := 400; message := "Can only specify one store!" |}), w)
      | Some (QString name) =>
          match get fault now name id w with
          | (Returned None, w1) =>
              (Thrown (HttpExn {| status := 404; message := "Ooops - can't find that key!" |}), w1)
          | (Returned (Some value), w1) => (Returned value, w1)
          | (Thrown e, w1) => (Thrown e, w1)
          end
      end
  end.

End MainTs.

(** ** Vocabulary of the statements *)

(** What holds of every entry of a registry the engine has built: it sits
    under its own name and its handle persists to the directory of that
    name. *)
Definition entry_ok (w : World) (kv : string * StoreDetails) : Prop :=
  name kv.2 = kv.1 ∧
  ∃ hd, handles w !! db kv.2 = Some hd ∧
        location hd = storePath (_storageDir w) kv.1.

(** Well-formed registries: names are unique, no two entries share a handle,
    and every entry is [entry_ok]. *)
Record wf (w : World) : Prop := {
  wf_keys : NoDup (JsMap.keys (_stores w));
  wf_dbs : NoDup (db <$> JsMap.values (_stores w));
  wf_entries : Forall (entry_ok w) (_stores w);
}.

(** Number of events of a log that satisfy [p]. *)
Fixpoint count (p : Event → bool) (l : list Event) : nat :=
  match l with
  | [] => 0
  | e :: l' => (if p e then 1 else 0) + count p l'
  end.

(** How many times [close()] was called on handle [h]. *)
Definition closes_of (h : nat) (l : list Event) : nat :=
  count (λ e, bool_decide (e = DbClose h)) l.

(** How many times [close()] was called at all. *)
Definition closes (l : list Event) : nat :=
  count (λ e, match e with DbClose _ => true | _ => false end) l.

(** How many failures were logged. *)
Definition errors_logged (l : list Event) : nat :=
  count (λ e, match e with LogError _ _ _ _ => true | _ => false end) l.

(** How many [put] and [del] calls reached the persistence layer. *)
Definition puts (l : list Event) : nat :=
  count (λ e, match e with DbPut _ _ _ => true | _ => false end) l.
Definition dels (l : list Event) : nat :=
  count (λ e, match e with DbDel _ _ => true | _ => false end) l.

(** Does the string contain the separator? *)
Fixpoint has_sep (sep : ascii) (s : string) : bool :=
  match s with
  | EmptyString => false
  | String c rest => if decide (c = sep) then true else has_sep sep rest
  end.

(** The directory a request on store [n] is served from: that of the handle
    registered under [n] when it is open, that of the handle a first access
    opens when nothing is registered; none when the registered handle is not
    open. *)
Definition target (n : string) (w : World) : option string :=
  match JsMap.get n (_stores w) with
  | Some d => open_at (db d) w
  | None => Some (storePath (_storageDir w) n)
  end.

(** A closing loop over [ds], the environment deciding each close by
    [closeFault]: the entries closed before the first close that fails, and
    that first failure, if there is one. *)
Fixpoint closed_ok (closeFault : nat → option DbError)
    (ds : list StoreDetails) : list StoreDetails :=
  match ds with
  | [] => []
  | d :: rest =>
      match closeFault (db d) with
      | None => d :: closed_ok closeFault rest
      | Some _ => []
      end
  end.

Fixpoint first_failure (closeFault : nat → option DbError)
    (ds : list StoreDetails) : option (StoreDetails * DbError) :=
  match ds with
  | [] => None
  | d :: rest =>
      match closeFault (db d) with
      | None => first_failure closeFault rest
      | Some e => Some (d, e)
      end
  end.

(** The events of closing the entries [ds] one after the other. *)
Fixpoint close_events (fmt : string) (ds : list StoreDetails) : list Event :=
  match ds with
  | [] => []
  | d :: rest => LogInfo fmt (name d) :: DbClose (db d) :: close_events fmt rest
  end.

(** The store a CRUD action addresses. *)
Definition crud_name (a : Action) : option string :=
  match a with
  | CallGet _ _ n _ | CallWrite _ _ n _ _ | CallDel _ _ n _ => Some n
  | _ => None
  end.

(** The worlds the engine can be in: constructed, then acted upon. *)
Definition reachable (w : World) : Prop :=
  ∃ dir cfg parsed disk0 nfr acts,
    w = run acts (constructor dir cfg parsed disk0 nfr).

(** Every handle that is open is the handle of a registered entry. *)
Definition leakfree (w : World) : Prop :=
  ∀ h loc, open_at h w = Some loc →
    ∃ k v, JsMap.get k (_stores w) = Some v ∧ db v = h.

(** The handle of every registered entry is open. *)
Definition all_open (w : World) : Prop :=
  ∀ k v, JsMap.get k (_stores w) = Some v → is_Some (open_at (db v) w).

(** Actions that close only what they remove: no [stop()], and no sweep in
    which a close fails. *)
Definition calm (a : Action) : Prop :=
  match a with
  | CallStop _ => False
  | TimerFires _ closeFault _ => ∀ h, closeFault h = None
  | _ => True
  end.

(** The environment lets every close succeed. *)
Definition no_fault : nat → option DbError := λ _, None.

(** The environment makes the close of handle [h0] fail with [e], and lets
    every other close succeed. *)
Definition fail_on (h0 : nat) (e : DbError) : nat → option DbError :=
  λ h, if decide (h = h0) then Some e else None.

(** Two stores written at times 5 and 6, the threshold being 10 s. *)
Definition two_stores : World :=
  run [CallWrite None 5 "s1" "k1" "v1"; CallWrite None 6 "s2" "k2" "v2"]
    (constructor "/var/db" "10" (Num 10) ∅ true).

(** ** Facts about the association-list [Map] *)
Section JsMapFacts.
Context {V : Type}.
Implicit Types (k : string) (v : V) (m : list (string * V)).

Lemma get_Some_elem k v m : JsMap.get k m = Some v → (k, v) ∈ m.
Proof.
  induction m as [|[k' v'] m IH]; simpl; [done|].
  case_decide; intros Hg.
  - simplify_eq. apply list_elem_of_here.
  - apply list_elem_of_further. auto.
Qed.

Lemma get_None_keys k m : JsMap.get k m = None ↔ k ∉ JsMap.keys m.
Proof.
  unfold JsMap.keys. induction m as [|[k' v'] m IH]; simpl.
  - split; [intros _; apply not_elem_of_nil | done].
  - rewrite not_elem_of_cons. case_decide; split; try done.
    + intros [? _]. congruence.
    + intros ?. split; [congruence | by apply IH].
    + intros [_ ?]. by apply IH.
Qed.

Lemma elem_get k v m : NoDup (JsMap.keys m) → (k, v) ∈ m → JsMap.get k m = Some v.
Proof.
  unfold JsMap.keys. induction m as [|[k' v'] m IH]; simpl.
  - intros _ H. by apply elem_of_nil in H.
  - rewrite NoDup_cons. intros [Hk Hnd] [Heq|Hin]%elem_of_cons.
    + simplify_eq. by rewrite decide_True.
    + rewrite decide_False; [by apply IH|].
      intros ->. apply Hk. apply (list_elem_of_fmap_2 fst) in Hin. done.
Qed.

Lemma get_set_eq k v m : JsMap.get k (JsMap.set k v m) = Some v.
Proof.
  induction m as [|[k' v'] m IH]; simpl.
  - by rewrite decide_True.
  - case_decide; simpl; [by rewrite decide_True | by rewrite decide_False].
Qed.

Lemma get_set_ne k k' v m : k ≠ k' → JsMap.get k' (JsMap.set k v m) = JsMap.get k' m.
Proof.
  intros Hne. induction m as [|[k0 v0] m IH]; simpl.
  - by rewrite decide_False.
  - case_decide; simpl.
    + subst k0. by rewrite !decide_False.
    + case_decide; [done | apply IH].
Qed.

Lemma set_absent k v m : JsMap.get k m = None → JsMap.set k v m = m ++ [(k, v)].
Proof.
  induction m as [|[k0 v0] m IH]; simpl; [done|].
  case_decide; [done|]. intros ?. f_equal. auto.
Qed.

Lemma keys_set_present k v m :
  is_Some (JsMap.get k m) → JsMap.keys (JsMap.set k v m) = JsMap.keys m.
Proof.
  unfold JsMap.keys. induction m as [|[k0 v0] m IH]; simpl.
  - by intros [? ?].
  - case_decide; simpl; [by subst | intros ?; f_equal; auto].
Qed.

Lemma values_set_present {B} (f : V → B) k v v0 m :
  JsMap.get k m = Some v0 → f v = f v0 →
  f <$> JsMap.values (JsMap.set k v m) = f <$> JsMap.values m.
Proof.
  unfold JsMap.values. intros Hg Hf. induction m as [|[k1 v1] m IH]; simpl in *; [done|].
  case_decide; simpl.
  - simplify_eq. by rewrite Hf.
  - f_equal. auto.
Qed.

Lemma elem_set k v k' v' m :
  (k', v') ∈ JsMap.set k v m → (k', v') = (k, v) ∨ (k', v') ∈ m.
Proof.
  induction m as [|[k0 v0] m IH]; simpl.
  - intros ?%list_elem_of_singleton. by left.
  - case_decide.
    + intros [?|?]%elem_of_cons; [by left | right; by apply list_elem_of_further].
    + intros [?|?]%elem_of_cons.
      * right. simplify_eq. apply list_elem_of_here.
      * destruct IH as [?|?]; [done | by left | right; by apply list_elem_of_further].
Qed.

Lemma get_delete_eq k m : JsMap.get k (JsMap.delete k m) = None.
Proof.
  induction m as [|[k0 v0] m IH]; simpl; [done|].
  case_decide; simpl; [done | by rewrite decide_False].
Qed.

Lemma get_delete_ne k k' m : k ≠ k' → JsMap.get k' (JsMap.delete k m) = JsMap.get k' m.
Proof.
  intros Hne. induction m as [|[k0 v0] m IH]; simpl; [done|].
  case_decide; simpl.
  - subst. by rewrite decide_False.
  - case_decide; [done | apply IH].
Qed.

Lemma delete_sublist k m : JsMap.delete k m `sublist_of` m.
Proof.
  induction m as [|[k0 v0] m IH]; simpl; [done|].
  case_decide; [by apply sublist_cons | by apply sublist_skip].
Qed.

End JsMapFacts.

(** ** Well-formedness is an invariant *)

Lemma wf_frame (w w' : World) :
  _stores w' = _stores w →
  _storageDir w' = _storageDir w →
  (∀ h hd, handles w !! h = Some hd →
           ∃ hd', handles w' !! h = Some hd' ∧ location hd' = location hd) →
  wf w → wf w'.
Proof.
  intros Hs Hd Hh [Hk Hdb He]. split; rewrite ?Hs; try done.
  eapply Forall_impl; [exact He|]. intros [k v] [Hn (hd & Hl & Hloc)].
  split; [done|]. destruct (Hh _ _ Hl) as (hd' & ? & ?).
  exists hd'. split; [done|]. rewrite Hd. congruence.
Qed.

Lemma wf_emit e w : wf w → wf (emit e w).
Proof. apply wf_frame; eauto. Qed.

Lemma wf_with_disk d w : wf w → wf (with_disk d w).
Proof. apply wf_frame; eauto. Qed.

Lemma wf_with_timer t ivs w : wf w → wf (with_timer t ivs w).
Proof. apply wf_frame; eauto. Qed.

Lemma wf_entry w k v :
  wf w → JsMap.get k (_stores w) = Some v →
  name v = k ∧ ∃ hd, handles w !! db v = Some hd ∧
                     location hd = storePath (_storageDir w) k.
Proof.
  intros [_ _ He] Hg%get_Some_elem.
  rewrite Forall_forall in He. apply (He _ Hg).
Qed.

Lemma wf_touch now n d w :
  wf w → JsMap.get n (_stores w) = Some d →
  wf (with_stores (JsMap.set n (set_lastAccessed now d) (_stores w)) w).
Proof.
  intros Hwf Hg. destruct (wf_entry _ _ _ Hwf Hg) as [Hn Hh].
  destruct Hwf as [Hk Hdb He]. split; simpl.
  - rewrite keys_set_present; [done | by eexists].
  - by rewrite (values_set_present db n _ d).
  - rewrite Forall_forall in He. apply Forall_forall. intros [k v] Hin.
    apply elem_set in Hin as [Heq|Hin]; [|by apply He].
    simplify_eq. split; [done|]. exact Hh.
Qed.

Lemma wf_open now n w :
  wf w → JsMap.get n (_stores w) = None →
  wf (with_stores
        (JsMap.set n {| lastAccessed := now; name := n; db := length (handles w) |}
           (_stores w))
        (levelup (storePath (_storageDir w) n)
           (info "Creating/Opening storage (%s)" n w)).2).
Proof.
  intros [Hk Hdb He] Hg. rewrite set_absent by done.
  rewrite Forall_forall in He.
  split; simpl; unfold JsMap.keys, JsMap.values; rewrite ?fmap_app; simpl.
  - apply NoDup_app. split; [done|]. split; [|apply NoDup_singleton].
    intros k Hin ->%list_elem_of_singleton. by apply get_None_keys in Hg.
  - apply NoDup_app. split; [done|]. split; [|apply NoDup_singleton].
    intros h Hin ->%list_elem_of_singleton.
    apply list_elem_of_fmap in Hin as (v & Hv & Hin).
    apply list_elem_of_fmap in Hin as ([k v'] & -> & Hin).
    destruct (He _ Hin) as [_ (hd & Hl%lookup_lt_Some & _)]. simpl in *. lia.
  - apply Forall_app. split.
    + apply Forall_forall. intros [k v] Hin.
      destruct (He _ Hin) as [Hn (hd & Hl & Hloc)]. split; [done|].
      exists hd. split; [|done]. simpl in *. by apply lookup_app_l_Some.
    + apply Forall_singleton. split; [done|]. simpl.
      eexists. split; [apply list_lookup_middle; done | done].
Qed.

Lemma wf_delete k w : wf w → wf (with_stores (JsMap.delete k (_stores w)) w).
Proof.
  intros [Hk Hdb He]. pose proof (delete_sublist k (_stores w)) as Hsub.
  split; simpl.
  - eapply sublist_NoDup; [exact Hk|]. by apply fmap_sublist.
  - eapply sublist_NoDup; [exact Hdb|]. by do 2 apply fmap_sublist.
  - rewrite Forall_forall in He. apply Forall_forall. intros kv Hin.
    apply He. eapply elem_of_sublist; done.
Qed.

Lemma wf_close fault h w : wf w → wf (db_close fault h w).2.
Proof.
  unfold db_close. destruct fault; simpl; [apply wf_emit|].
  intros Hwf. apply (wf_frame w); try done.
  intros h' hd Hl. simpl. destruct (decide (h = h')) as [->|Hne].
  - rewrite list_lookup_alter_eq, Hl. simpl. eauto.
  - rewrite list_lookup_alter_ne by done. eauto.
Qed.

Lemma getStore_hit now n d w :
  JsMap.get n (_stores w) = Some d →
  getStore now n w =
    (set_lastAccessed now d,
     with_stores (JsMap.set n (set_lastAccessed now d) (_stores w)) w).
Proof. unfold getStore. by intros ->. Qed.

Lemma getStore_miss now n w :
  JsMap.get n (_stores w) = None →
  getStore now n w =
    ({| lastAccessed := now; name := n; db := length (handles w) |},
     with_stores
       (JsMap.set n {| lastAccessed := now; name := n; db := length (handles w) |}
          (_stores w))
       (levelup (storePath (_storageDir w) n)
          (info "Creating/Opening storage (%s)" n w)).2).
Proof. unfold getStore. by intros ->. Qed.

Lemma getStore_wf now n w : wf w → wf (getStore now n w).2.
Proof.
  intros Hwf. destruct (JsMap.get n (_stores w)) as [d|] eqn:Hg.
  - rewrite (getStore_hit _ _ d) by done. by apply wf_touch.
  - rewrite getStore_miss by done. by apply wf_open.
Qed.

Lemma db_get_wf fault h k w : wf w → wf (db_get fault h k w).2.
Proof.
  intros Hwf. unfold db_get.
  repeat case_match; simpl; by apply wf_emit.
Qed.

Lemma db_put_wf fault h k v w : wf w → wf (db_put fault h k v w).2.
Proof.
  intros Hwf. unfold db_put.
  repeat case_match; simpl; try apply wf_with_disk; by apply wf_emit.
Qed.

Lemma db_del_wf fault h k w : wf w → wf (db_del fault h k w).2.
Proof.
  intros Hwf. unfold db_del.
  repeat case_match; simpl; try apply wf_with_disk; by apply wf_emit.
Qed.

Lemma get_wf fault now n k w : wf w → wf (get fault now n k w).2.
Proof.
  intros Hwf. unfold get.
  pose proof (getStore_wf now n w Hwf) as H1.
  destruct (getStore now n w) as [store w1]. simpl in H1.
  pose proof (db_get_wf fault (db store) k w1 H1) as H2.
  destruct (db_get fault (db store) k w1) as [[[v|]|e] w2]; simpl in *;
    try done. by apply wf_emit.
Qed.

Lemma write_wf fault now n k v w : wf w → wf (write fault now n k v w).2.
Proof.
  intros Hwf. unfold write.
  pose proof (getStore_wf now n w Hwf) as H1.
  destruct (getStore now n w) as [store w1]. simpl in H1.
  pose proof (db_put_wf fault (db store) k v w1 H1) as H2.
  destruct (db_put fault (db store) k v w1) as [[[]|e] w2]; simpl in *;
    try done. by apply wf_emit.
Qed.

Lemma del_wf fault now n k w : wf w → wf (del fault now n k w).2.
Proof.
  intros Hwf. unfold del.
  pose proof (getStore_wf now n w Hwf) as H1.
  destruct (getStore now n w) as [store w1]. simpl in H1.
  pose proof (db_del_wf fault (db store) k w1 H1) as H2.
  destruct (db_del fault (db store) k w1) as [[[]|e] w2]; simpl in *;
    try done. by apply wf_emit.
Qed.

Lemma close_loop_wf closeFault closed w :
  wf w → wf (close_loop closeFault closed w).2.
Proof.
  revert w. induction closed as [|d rest IH]; intros w Hwf; simpl; [done|].
  pose proof (wf_close (closeFault (db d)) (db d) _
                (wf_emit (LogInfo "Closing storage (%s)" (name d)) w Hwf)) as H1.
  unfold info.
  destruct (db_close _ _ _) as [[[]|e] w2]; simpl in *; [|done].
  apply IH. by apply wf_delete.
Qed.

Lemma checkStorage_wf closeFault now w : wf w → wf (checkStorage closeFault now w).2.
Proof. apply close_loop_wf. Qed.

Lemma stop_loop_wf closeFault vs w : wf w → wf (stop_loop closeFault vs w).2.
Proof.
  revert w. induction vs as [|d rest IH]; intros w Hwf; simpl; [done|].
  pose proof (wf_close (closeFault (db d)) (db d) _
                (wf_emit (LogInfo "Closing Storage (%s)" (name d)) w Hwf)) as H1.
  unfold info.
  destruct (db_close _ _ _) as [[[]|e] w2]; simpl in *; [|done].
  by apply IH.
Qed.

Lemma stop_wf closeFault w : wf w → wf (stop closeFault w).2.
Proof.
  intros Hwf. apply stop_loop_wf. unfold clearInterval.
  destruct (_closeStorageTimer w); [by apply wf_with_timer | done].
Qed.

Lemma start_wf w : wf w → wf (start w).2.
Proof.
  intros Hwf. unfold start, setInterval. case_match; simpl; [|done].
  by do 2 apply wf_with_timer.
Qed.

Lemma constructor_wf dir cfg parsed disk0 nfr : wf (constructor dir cfg parsed disk0 nfr).
Proof. split; simpl; constructor. Qed.

Lemma perform_wf a w : wf w → wf (perform a w).
Proof.
  intros Hwf. destruct a; simpl.
  - by apply get_wf.
  - by apply write_wf.
  - by apply del_wf.
  - by apply start_wf.
  - by apply stop_wf.
  - repeat case_match; try done. by apply checkStorage_wf.
Qed.

(** Every world the engine can reach from its constructor is well-formed. *)
Lemma run_wf acts w : wf w → wf (run acts w).
Proof.
  revert w. induction acts as [|a rest IH]; intros w Hwf; simpl; [done|].
  apply IH. by apply perform_wf.
Qed.

Lemma reachable_wf w : reachable w → wf w.
Proof.
  intros (dir & cfg & parsed & disk0 & nfr & acts & ->).
  apply run_wf, constructor_wf.
Qed.

(** ** Counting events *)

Lemma count_app p l1 l2 : count p (l1 ++ l2) = count p l1 + count p l2.
Proof. induction l1 as [|e l1 IH]; simpl; [done|]. rewrite IH. lia. Qed.

Lemma count_snoc p l e : count p (l ++ [e]) = count p l + (if p e then 1 else 0).
Proof. rewrite count_app. simpl. lia. Qed.

(** ** Lookup-or-create *)

(** What [getStore] leaves alone, and what it may add to the log. *)
Lemma getStore_frame now n w :
  disk (getStore now n w).2 = disk w ∧
  notFoundRejects (getStore now n w).2 = notFoundRejects w ∧
  _storageDir (getStore now n w).2 = _storageDir w ∧
  _keepOpenInterval (getStore now n w).2 = _keepOpenInterval w ∧
  _closeStorageTimer (getStore now n w).2 = _closeStorageTimer w ∧
  intervals (getStore now n w).2 = intervals w.
Proof. unfold getStore. by case_match. Qed.

Lemma getStore_count p now n w :
  (∀ fmt arg, p (LogInfo fmt arg) = false) →
  (∀ h loc, p (DbOpen h loc) = false) →
  count p (log (getStore now n w).2) = count p (log w).
Proof.
  intros Hi Ho. unfold getStore. case_match; simpl; [done|].
  rewrite !count_snoc, Hi, Ho. lia.
Qed.

(** Handles that exist are left as they are. *)
Lemma getStore_handles now n w h hd :
  handles w !! h = Some hd → handles (getStore now n w).2 !! h = Some hd.
Proof.
  intros Hl. unfold getStore. case_match; simpl; [done|].
  by apply lookup_app_l_Some.
Qed.

Lemma getStore_lookup now n w :
  JsMap.get n (_stores (getStore now n w).2) = Some (getStore now n w).1.
Proof. unfold getStore. case_match; simpl; apply get_set_eq. Qed.

Lemma getStore_other now n m w :
  n ≠ m → JsMap.get m (_stores (getStore now n w).2) = JsMap.get m (_stores w).
Proof. intros Hne. unfold getStore. case_match; simpl; by apply get_set_ne. Qed.

(** C5. After [getStore(name)] returns, the entry for [name] is in the
    registry and its access time is the time of the call. An entry that was
    there is reused: same name, same handle, no handle opened, nothing logged,
    the keys of the map as they were. A missing entry is created at the end of
    the map with a handle opened on [<storageDir>/<name>]. The call has no
    error outcome, and logs no failure. *)
Theorem C5_getStore_present_and_touched (now : Z) (n : string) (w : World) :
  let '(d, w') := getStore now n w in
  JsMap.get n (_stores w') = Some d ∧
  lastAccessed d = now ∧
  errors_logged (log w') = errors_logged (log w) ∧
  match JsMap.get n (_stores w) with
  | Some d0 =>
      db d = db d0 ∧ name d = name d0 ∧
      handles w' = handles w ∧ log w' = log w ∧
      JsMap.keys (_stores w') = JsMap.keys (_stores w)
  | None =>
      name d = n ∧ db d = length (handles w) ∧
      handles w' =
        handles w ++ [{| location := storePath (_storageDir w) n; isOpen := true |}] ∧
      _stores w' = _stores w ++ [(n, d)] ∧
      log w' =
        log w ++ [LogInfo "Creating/Opening storage (%s)" n;
                  DbOpen (length (handles w)) (storePath (_storageDir w) n)]
  end.
Proof.
  destruct (JsMap.get n (_stores w)) as [d0|] eqn:Hg.
  - rewrite (getStore_hit _ _ d0) by done. simpl.
    rewrite get_set_eq, keys_set_present by (by eexists). done.
  - rewrite getStore_miss by done. simpl.
    rewrite get_set_eq, set_absent by done.
    rewrite <- app_assoc. simpl. repeat split; try done.
    unfold errors_logged. rewrite count_app. simpl. lia.
Qed.

(** ** CRUD delegation *)

Lemma open_at_emit e h w : open_at h (emit e w) = open_at h w.
Proof. reflexivity. Qed.

(** C6. [get(name, key)] always returns, it never throws. With no failure of
    the persistence call and the store's handle open, it returns the value
    stored under the key, logging no failure, or [null] when the key is
    absent. When the persistence call fails (the environment's fault, or a
    handle that is not open) the failure is logged and the result is the same
    [null]. *)
Theorem C6_get_null_on_absence_or_failure
    (fault : option DbError) (now : Z) (n k : string) (w : World) :
  let '(store, w1) := getStore now n w in
  let '(r, w') := get fault now n k w in
  match fault, open_at (db store) w1 with
  | None, Some loc =>
      match contents loc w !! k with
      | Some value =>
          r = Returned (Some value) ∧
          errors_logged (log w') = errors_logged (log w)
      | None => r = Returned None
      end
  | None, None =>
      r = Returned None ∧
      last (log w') =
        Some (LogError "Error (%s) while attempting to get key (%s) from store (%s)"
                NotOpenError k n)
  | Some e, _ =>
      r = Returned None ∧
      last (log w') =
        Some (LogError "Error (%s) while attempting to get key (%s) from store (%s)"
                e k n)
  end.
Proof.
  unfold get.
  pose proof (getStore_frame now n w) as (Hdisk & _).
  pose proof (getStore_count
                (λ e, match e with LogError _ _ _ _ => true | _ => false end)
                now n w (λ _ _, eq_refl) (λ _ _, eq_refl)) as Herr.
  destruct (getStore now n w) as [store w1]; simpl in *.
  unfold db_get. destruct fault as [e|]; simpl.
  - split; [done|]. apply last_snoc.
  - rewrite open_at_emit. destruct (open_at (db store) w1) as [loc|] eqn:Ho.
    + unfold contents. simpl. rewrite Hdisk.
      destruct (default ∅ (disk w !! loc) !! k) as [value|]; simpl.
      * split; [done|]. unfold errors_logged in *. simpl.
        rewrite count_snoc. simpl. lia.
      * by destruct (notFoundRejects w1).
    + split; [done|]. apply last_snoc.
Qed.

(** C7. [write] and [del] return [true] exactly when the persistence call
    ([put], [del]) succeeds; when it fails they log the failure and return
    [false]; either way they return (no throw) after exactly one persistence
    call (no retry). On an open handle, with no fault from the environment,
    [del] returns [true] whether or not the key is there, so deleting a key
    that was never present is a success, and the key is absent afterwards. *)
Theorem C7_write_del_success_iff_persistence
    (fault : option DbError) (now : Z) (n k v : string) (w : World) :
  let '(store, w1) := getStore now n w in
  (let '(r, w') := write fault now n k v w in
   match (db_put fault (db store) k v w1).1 with
   | Resolved _ =>
       r = Returned true ∧ errors_logged (log w') = errors_logged (log w)
   | Rejected e =>
       r = Returned false ∧
       last (log w') =
         Some (LogError "Error (%s) while attempting to write key (%s) from store (%s)"
                 e k n)
   end ∧ puts (log w') = S (puts (log w))) ∧
  (let '(r, w') := del fault now n k w in
   match (db_del fault (db store) k w1).1 with
   | Resolved _ =>
       r = Returned true ∧ errors_logged (log w') = errors_logged (log w)
   | Rejected e =>
       r = Returned false ∧
       last (log w') =
         Some (LogError "Error (%s) while attempting to delete key (%s) from store (%s)"
                 e k n)
   end ∧ dels (log w') = S (dels (log w))) ∧
  (let '(r, w') := del None now n k w in
   match open_at (db store) w1 with
   | Some loc => r = Returned true ∧ contents loc w' !! k = None
   | None => r = Returned false
   end).
Proof.
  unfold write, del.
  pose proof (getStore_count
                (λ e, match e with LogError _ _ _ _ => true | _ => false end)
                now n w (λ _ _, eq_refl) (λ _ _, eq_refl)) as Herr.
  pose proof (getStore_count
                (λ e, match e with DbPut _ _ _ => true | _ => false end)
                now n w (λ _ _, eq_refl) (λ _ _, eq_refl)) as Hput.
  pose proof (getStore_count
                (λ e, match e with DbDel _ _ => true | _ => false end)
                now n w (λ _ _, eq_refl) (λ _ _, eq_refl)) as Hdel.
  destruct (getStore now n w) as [store w1]; simpl in *.
  unfold errors_logged, puts, dels. split; [|split].
  - unfold db_put. destruct fault as [e|]; simpl.
    + rewrite last_snoc, !count_snoc. simpl. split; [done | lia].
    + rewrite open_at_emit. destruct (open_at (db store) w1) as [loc|]; simpl.
      * rewrite !count_snoc. simpl. split; [split; [done | lia] | lia].
      * rewrite last_snoc, !count_snoc. simpl. split; [done | lia].
  - unfold db_del. destruct fault as [e|]; simpl.
    + rewrite last_snoc, !count_snoc. simpl. split; [done | lia].
    + rewrite open_at_emit. destruct (open_at (db store) w1) as [loc|]; simpl.
      * rewrite !count_snoc. simpl. split; [split; [done | lia] | lia].
      * rewrite last_snoc, !count_snoc. simpl. split; [done | lia].
  - unfold db_del. rewrite open_at_emit.
    destruct (open_at (db store) w1) as [loc|]; simpl; [|done].
    split; [done|]. unfold contents. simpl.
    rewrite lookup_insert_eq. simpl. apply lookup_delete_eq.
Qed.

(** *** What a CRUD call touches *)

Lemma append_inj_r (s a b : string) : s +:+ a = s +:+ b → a = b.
Proof. induction s as [|c s IH]; simpl; [done|]. intros [=]. auto. Qed.

Lemma storePath_inj dir a b : storePath dir a = storePath dir b → a = b.
Proof. unfold storePath. intros H. by do 2 apply append_inj_r in H. Qed.

(** The handle [getStore] returns is open exactly when [target] says so. *)
Lemma getStore_target now n w :
  open_at (db (getStore now n w).1) (getStore now n w).2 = target n w.
Proof.
  unfold target. destruct (JsMap.get n (_stores w)) as [d|] eqn:Hg.
  - by rewrite (getStore_hit _ _ d).
  - rewrite getStore_miss by done. unfold open_at. simpl.
    by rewrite list_lookup_middle.
Qed.

(** The result of [get] in terms of the directory it is served from. *)
Lemma get_result fault now n k w :
  (get fault now n k w).1 =
    Returned (match fault with
              | Some _ => None
              | None =>
                  match target n w with
                  | Some loc => contents loc w !! k
                  | None => None
                  end
              end).
Proof.
  unfold get.
  pose proof (getStore_frame now n w) as (Hdisk & _).
  pose proof (getStore_target now n w) as Ht.
  destruct (getStore now n w) as [store w1]; simpl in *.
  unfold db_get. destruct fault as [e|]; simpl; [done|].
  rewrite open_at_emit, Ht. destruct (target n w) as [loc|]; simpl; [|done].
  unfold contents. simpl. rewrite Hdisk.
  destruct (default ∅ (disk w !! loc) !! k); simpl; [done|].
  by destruct (notFoundRejects w1).
Qed.

(** The result of [write] and what it does to the disk. *)
Lemma write_result fault now n k v w :
  (write fault now n k v w).1 =
    Returned (match fault, target n w with None, Some _ => true | _, _ => false end) ∧
  disk (write fault now n k v w).2 =
    match fault, target n w with
    | None, Some loc => <[loc := <[k := v]> (contents loc w)]> (disk w)
    | _, _ => disk w
    end.
Proof.
  unfold write.
  pose proof (getStore_frame now n w) as (Hdisk & _).
  pose proof (getStore_target now n w) as Ht.
  destruct (getStore now n w) as [store w1]; simpl in *.
  unfold db_put. destruct fault as [e|]; simpl; [done|].
  rewrite open_at_emit, Ht. destruct (target n w) as [loc|]; simpl; [|done].
  unfold contents. simpl. by rewrite Hdisk.
Qed.

Lemma del_result fault now n k w :
  (del fault now n k w).1 =
    Returned (match fault, target n w with None, Some _ => true | _, _ => false end) ∧
  disk (del fault now n k w).2 =
    match fault, target n w with
    | None, Some loc => <[loc := delete k (contents loc w)]> (disk w)
    | _, _ => disk w
    end.
Proof.
  unfold del.
  pose proof (getStore_frame now n w) as (Hdisk & _).
  pose proof (getStore_target now n w) as Ht.
  destruct (getStore now n w) as [store w1]; simpl in *.
  unfold db_del. destruct fault as [e|]; simpl; [done|].
  rewrite open_at_emit, Ht. destruct (target n w) as [loc|]; simpl; [|done].
  unfold contents. simpl. by rewrite Hdisk.
Qed.

(** A CRUD call changes the registry and the handles as its [getStore] does,
    and the configuration not at all. *)
Lemma get_registry fault now n k w :
  _stores (get fault now n k w).2 = _stores (getStore now n w).2 ∧
  handles (get fault now n k w).2 = handles (getStore now n w).2 ∧
  _storageDir (get fault now n k w).2 = _storageDir w ∧
  disk (get fault now n k w).2 = disk w.
Proof.
  unfold get. pose proof (getStore_frame now n w) as (Hdisk & _ & Hdir & _).
  destruct (getStore now n w) as [store w1]; simpl in *.
  unfold db_get. by repeat case_match; simplify_eq; simpl.
Qed.

Lemma write_registry fault now n k v w :
  _stores (write fault now n k v w).2 = _stores (getStore now n w).2 ∧
  handles (write fault now n k v w).2 = handles (getStore now n w).2 ∧
  _storageDir (write fault now n k v w).2 = _storageDir w.
Proof.
  unfold write. pose proof (getStore_frame now n w) as (_ & _ & Hdir & _).
  destruct (getStore now n w) as [store w1]; simpl in *.
  unfold db_put. by repeat case_match; simplify_eq; simpl.
Qed.

Lemma del_registry fault now n k w :
  _stores (del fault now n k w).2 = _stores (getStore now n w).2 ∧
  handles (del fault now n k w).2 = handles (getStore now n w).2 ∧
  _storageDir (del fault now n k w).2 = _storageDir w.
Proof.
  unfold del. pose proof (getStore_frame now n w) as (_ & _ & Hdir & _).
  destruct (getStore now n w) as [store w1]; simpl in *.
  unfold db_del. by repeat case_match; simplify_eq; simpl.
Qed.

(** In a well-formed world a request on [n] is served from the directory of
    [n], if at all. *)
Lemma target_wf n w loc :
  wf w → target n w = Some loc → loc = storePath (_storageDir w) n.
Proof.
  intros Hwf. unfold target. destruct (JsMap.get n (_stores w)) as [d|] eqn:Hg.
  - destruct (wf_entry _ _ _ Hwf Hg) as [_ (hd & Hl & Hloc)].
    unfold open_at. rewrite Hl. case_match; [|done]. congruence.
  - congruence.
Qed.

(** The directory another store is served from does not depend on what
    [getStore(n)] did. *)
Lemma target_getStore_other now n m w :
  wf w → n ≠ m → target m (getStore now n w).2 = target m w.
Proof.
  intros Hwf Hne. unfold target.
  rewrite getStore_other by done.
  pose proof (getStore_frame now n w) as (_ & _ & Hdir & _). rewrite Hdir.
  destruct (JsMap.get m (_stores w)) as [d|] eqn:Hg; [|done].
  destruct (wf_entry _ _ _ Hwf Hg) as [_ (hd & Hl & _)].
  unfold open_at. by rewrite (getStore_handles now n w _ _ Hl), Hl.
Qed.

Lemma target_ext n w w' :
  _stores w' = _stores w → handles w' = handles w → _storageDir w' = _storageDir w →
  target n w' = target n w.
Proof. unfold target, open_at. by intros -> -> ->. Qed.

(** C1. If [write(s, k, v)] returns success, a [get(s, k)] that follows (its
    own persistence call not failing) returns [v]; and the write changes
    nothing of what a [get] on any other store [s2] returns, for [k] and for
    every other key. *)
Theorem C1_write_then_get_and_isolation
    (f1 : option DbError) (t1 : Z) (s k v : string) (w : World) :
  wf w →
  (write f1 t1 s k v w).1 = Returned true →
  let w' := (write f1 t1 s k v w).2 in
  (∀ t2, (get None t2 s k w').1 = Returned (Some v)) ∧
  (∀ f2 t2 s2 k2, s2 ≠ s → (get f2 t2 s2 k2 w').1 = (get f2 t2 s2 k2 w).1).
Proof.
  intros Hwf Hok w'.
  destruct (write_result f1 t1 s k v w) as [Hres Hdisk].
  destruct (write_registry f1 t1 s k v w) as (Hst & Hh & Hdir).
  fold w' in Hdisk, Hst, Hh, Hdir.
  rewrite Hres in Hok.
  destruct f1 as [e|]; [done|].
  destruct (target s w) as [loc|] eqn:Ht; [|done].
  clear Hok Hres. split.
  - intros t2. rewrite get_result.
    assert (target s w' = Some loc) as ->.
    { unfold target. rewrite Hst, getStore_lookup.
      unfold open_at. rewrite Hh. rewrite <- Ht. apply getStore_target. }
    unfold contents. rewrite Hdisk, lookup_insert_eq. simpl.
    by rewrite lookup_insert_eq.
  - intros f2 t2 s2 k2 Hne. rewrite !get_result.
    destruct f2 as [e|]; [done|].
    assert (target s2 w' = target s2 w) as ->.
    { rewrite <- (target_getStore_other t1 s s2 w) by done.
      apply target_ext; try done.
      by destruct (getStore_frame t1 s w) as (_ & _ & -> & _). }
    destruct (target s2 w) as [loc2|] eqn:Ht2; [|done].
    apply (target_wf _ _ _ Hwf) in Ht, Ht2.
    unfold contents. rewrite Hdisk, lookup_insert_ne; [done|].
    subst. intros Heq%storePath_inj. done.
Qed.

(** Delete, then read: after a [del] that succeeded, the key is absent. *)
Lemma del_then_get (f1 : option DbError) (t1 t2 : Z) (s k : string) (w : World) :
  (del f1 t1 s k w).1 = Returned true →
  (get None t2 s k (del f1 t1 s k w).2).1 = Returned None.
Proof.
  intros Hok.
  destruct (del_result f1 t1 s k w) as [Hres Hdisk].
  destruct (del_registry f1 t1 s k w) as (Hst & Hh & _).
  rewrite Hres in Hok. destruct f1 as [e|]; [done|].
  destruct (target s w) as [loc|] eqn:Ht; [|done].
  rewrite get_result.
  assert (target s (del None t1 s k w).2 = Some loc) as ->.
  { unfold target. rewrite Hst, getStore_lookup.
    unfold open_at. rewrite Hh. rewrite <- Ht. apply getStore_target. }
  unfold contents. rewrite Hdisk, lookup_insert_eq. simpl.
  by rewrite lookup_delete_eq.
Qed.

(** The hypotheses of C1 hold on a freshly constructed engine, where the
    theorem gives the spec's own example. *)
Lemma C1_witness :
  let w := constructor "/var/db" "10" (Num 10) ∅ true in
  (get None 6 "s1" "k1" (write None 5 "s1" "k1" "v1" w).2).1 = Returned (Some "v1") ∧
  (get None 6 "s2" "k1" (write None 5 "s1" "k1" "v1" w).2).1 =
    (get None 6 "s2" "k1" w).1.
Proof.
  intros w.
  destruct (C1_write_then_get_and_isolation None 5 "s1" "k1" "v1" w) as [H1 H2].
  - apply constructor_wf.
  - reflexivity.
  - split; [apply H1 | apply H2; discriminate].
Defined.

(** *** CRUD calls neither close nor remove *)

Lemma getStore_keeps now n w m d :
  JsMap.get m (_stores w) = Some d →
  ∃ d', JsMap.get m (_stores (getStore now n w).2) = Some d' ∧
        db d' = db d ∧ name d' = name d ∧ (m ≠ n → d' = d).
Proof.
  intros Hg. destruct (decide (m = n)) as [->|Hne].
  - rewrite getStore_lookup, (getStore_hit _ _ d) by done. simpl.
    eexists. split; [done|]. by repeat split.
  - rewrite getStore_other by done. eauto.
Qed.

Lemma crud_closes a n w :
  crud_name a = Some n → closes (log (perform a w)) = closes (log w).
Proof.
  unfold closes. intros Ha.
  destruct a as [f now m k|f now m k v|f now m k| | |]; simplify_eq/=.
  - rewrite <- (getStore_count _ now n w (λ _ _, eq_refl) (λ _ _, eq_refl)).
    unfold get. destruct (getStore now n w) as [store w1]; simpl.
    unfold db_get. repeat case_match; simplify_eq; simpl;
      rewrite ?count_snoc; simpl; lia.
  - rewrite <- (getStore_count _ now n w (λ _ _, eq_refl) (λ _ _, eq_refl)).
    unfold write. destruct (getStore now n w) as [store w1]; simpl.
    unfold db_put. repeat case_match; simplify_eq; simpl;
      rewrite ?count_snoc; simpl; lia.
  - rewrite <- (getStore_count _ now n w (λ _ _, eq_refl) (λ _ _, eq_refl)).
    unfold del. destruct (getStore now n w) as [store w1]; simpl.
    unfold db_del. repeat case_match; simplify_eq; simpl;
      rewrite ?count_snoc; simpl; lia.
Qed.

Lemma crud_registry a n w :
  crud_name a = Some n →
  ∃ now, _stores (perform a w) = _stores (getStore now n w).2 ∧
         handles (perform a w) = handles (getStore now n w).2.
Proof.
  intros Ha. destruct a as [f now m k|f now m k v|f now m k| | |]; simplify_eq/=;
    exists now.
  - by destruct (get_registry f now n k w) as (-> & -> & _).
  - by destruct (write_registry f now n k v w) as (-> & -> & _).
  - by destruct (del_registry f now n k w) as (-> & -> & _).
Qed.

(** C10. A CRUD call ([get], [write] or [del]) on store [n] removes no entry
    of the registry and keeps the handle (and the name) of every entry; the
    entry of every other name is left exactly as it was, access time
    included; every handle of the table of handles stays as it is, open or
    closed; and [close()] is called on nothing. *)
Theorem C10_crud_frame (a : Action) (n : string) (w : World) :
  crud_name a = Some n →
  let w' := perform a w in
  (∀ m d, JsMap.get m (_stores w) = Some d →
     ∃ d', JsMap.get m (_stores w') = Some d' ∧
           db d' = db d ∧ name d' = name d ∧ (m ≠ n → d' = d)) ∧
  (∀ h hd, handles w !! h = Some hd → handles w' !! h = Some hd) ∧
  closes (log w') = closes (log w).
Proof.
  intros Ha w'. subst w'.
  destruct (crud_registry a n w Ha) as (now & Hst & Hh).
  rewrite Hst, Hh. split; [|split].
  - intros m d. apply getStore_keeps.
  - intros h hd. apply getStore_handles.
  - by apply (crud_closes a n).
Qed.

(** C10 at work: with ["s1"] and ["s2"] registered, a [del] on ["s1"] leaves
    the entry of ["s2"] as it was. *)
Lemma C10_witness :
  let w := run [CallWrite None 5 "s1" "k1" "v1"; CallGet None 6 "s2" "k1"]
             (constructor "/var/db" "10" (Num 10) ∅ true) in
  JsMap.get "s2" (_stores (perform (CallDel None 9 "s1" "k1") w)) =
    Some {| lastAccessed := 6; name := "s2"; db := 1 |} ∧
  closes (log (perform (CallDel None 9 "s1" "k1") w)) = 0.
Proof.
  intros w.
  destruct (C10_crud_frame (CallDel None 9 "s1" "k1") "s1" w eq_refl)
    as (Hkeep & _ & Hcl).
  split.
  - destruct (Hkeep "s2" {| lastAccessed := 6; name := "s2"; db := 1 |} eq_refl)
      as (d' & Hg & _ & _ & Heq).
    rewrite Hg. f_equal. apply Heq. discriminate.
  - rewrite Hcl. reflexivity.
Defined.

(** ** The closing loops of the sweep and of [stop] *)

(** The sweep's loop, in one equation per component of the world. *)
Lemma close_loop_eq closeFault ds w :
  let r := close_loop closeFault ds w in
  let ok := closed_ok closeFault ds in
  r.1 = match first_failure closeFault ds with
        | None => Returned tt
        | Some (_, e) => Thrown (DbExn e)
        end ∧
  _stores r.2 = foldl (λ m d, JsMap.delete (name d) m) (_stores w) ok ∧
  handles r.2 = foldl (λ hs d, alter closeH (db d) hs) (handles w) ok ∧
  log r.2 =
    log w ++ close_events "Closing storage (%s)"
               (ok ++ match first_failure closeFault ds with
                      | None => []
                      | Some (d, _) => [d]
                      end) ∧
  disk r.2 = disk w ∧ _storageDir r.2 = _storageDir w ∧
  _keepOpenInterval r.2 = _keepOpenInterval w ∧
  _closeStorageTimer r.2 = _closeStorageTimer w ∧ intervals r.2 = intervals w.
Proof.
  revert w. induction ds as [|d rest IH]; intros w; simpl.
  - rewrite app_nil_r. done.
  - unfold db_close, info. destruct (closeFault (db d)) as [e|]; simpl.
    + rewrite <- app_assoc. done.
    + specialize (IH (with_stores (JsMap.delete (name d) (_stores w))
                        (with_handles (alter closeH (db d) (handles w))
                           (emit (DbClose (db d))
                              (emit (LogInfo "Closing storage (%s)" (name d)) w))))).
      simpl in IH. destruct IH as (H1 & H2 & H3 & H4 & H5).
      split; [exact H1|]. split; [exact H2|]. split; [exact H3|].
      split; [|exact H5]. rewrite H4. by rewrite <- !app_assoc.
Qed.

(** The loop of [stop], likewise; the registry is not touched. *)
Lemma stop_loop_eq closeFault ds w :
  let r := stop_loop closeFault ds w in
  let ok := closed_ok closeFault ds in
  r.1 = match first_failure closeFault ds with
        | None => Returned tt
        | Some (_, e) => Thrown (DbExn e)
        end ∧
  _stores r.2 = _stores w ∧
  handles r.2 = foldl (λ hs d, alter closeH (db d) hs) (handles w) ok ∧
  log r.2 =
    log w ++ close_events "Closing Storage (%s)"
               (ok ++ match first_failure closeFault ds with
                      | None => []
                      | Some (d, _) => [d]
                      end) ∧
  disk r.2 = disk w ∧ _storageDir r.2 = _storageDir w ∧
  _keepOpenInterval r.2 = _keepOpenInterval w ∧
  _closeStorageTimer r.2 = _closeStorageTimer w ∧ intervals r.2 = intervals w.
Proof.
  revert w. induction ds as [|d rest IH]; intros w; simpl.
  - rewrite app_nil_r. done.
  - unfold db_close, info. destruct (closeFault (db d)) as [e|]; simpl.
    + rewrite <- app_assoc. done.
    + specialize (IH (with_handles (alter closeH (db d) (handles w))
                        (emit (DbClose (db d))
                           (emit (LogInfo "Closing Storage (%s)" (name d)) w)))).
      simpl in IH. destruct IH as (H1 & H2 & H3 & H4 & H5).
      split; [exact H1|]. split; [exact H2|]. split; [exact H3|].
      split; [|exact H5]. rewrite H4. by rewrite <- !app_assoc.
Qed.

Lemma closed_ok_all closeFault ds :
  (∀ d, d ∈ ds → closeFault (db d) = None) →
  closed_ok closeFault ds = ds ∧ first_failure closeFault ds = None.
Proof.
  induction ds as [|d rest IH]; simpl; [done|]. intros Hok.
  rewrite (Hok d) by apply list_elem_of_here.
  destruct IH as [-> ->]; [|done].
  intros d' ?. apply Hok. by apply list_elem_of_further.
Qed.

Lemma closed_ok_split closeFault pre v post e :
  (∀ d, d ∈ pre → closeFault (db d) = None) →
  closeFault (db v) = Some e →
  closed_ok closeFault (pre ++ v :: post) = pre ∧
  first_failure closeFault (pre ++ v :: post) = Some (v, e).
Proof.
  intros Hok Hv. induction pre as [|d pre IH]; simpl.
  - by rewrite Hv.
  - rewrite (Hok d) by apply list_elem_of_here.
    destruct IH as [-> ->]; [|done].
    intros d' ?. apply Hok. by apply list_elem_of_further.
Qed.

Lemma elem_of_select_closed now i v vs :
  v ∈ select_closed now i vs ↔ v ∈ vs ∧ idle now i v = true.
Proof.
  induction vs as [|d rest IH]; simpl.
  - split; [by intros ?%elem_of_nil | by intros [?%elem_of_nil _]].
  - destruct (idle now i d) eqn:Hd; rewrite ?elem_of_cons, IH, ?elem_of_cons.
    + split.
      * intros [->|[? ?]]; [by split; [left|] | by split; [right|]].
      * intros [[->|?] ?]; [by left | by right].
    + split.
      * intros [? ?]. by split; [right|].
      * intros [[->|?] ?]; [congruence | done].
Qed.

Lemma select_closed_sublist now i vs : select_closed now i vs `sublist_of` vs.
Proof.
  induction vs as [|d rest IH]; simpl; [done|].
  case_match; [by apply sublist_skip | by apply sublist_cons].
Qed.

Lemma get_foldl_delete k (ds : list StoreDetails) (m : list (string * StoreDetails)) :
  JsMap.get k (foldl (λ m d, JsMap.delete (name d) m) m ds) =
    if decide (k ∈ name <$> ds) then None else JsMap.get k m.
Proof.
  revert m. induction ds as [|d rest IH]; intros m.
  - case_decide as Hin; [by apply elem_of_nil in Hin | done].
  - cbn [foldl]. rewrite IH, fmap_cons.
    destruct (decide (k = name d)) as [->|Hne].
    + rewrite get_delete_eq.
      rewrite (decide_True (P := _ ∈ _ :: _)) by apply list_elem_of_here.
      by case_decide.
    + rewrite get_delete_ne by done.
      case_decide as Hin.
      * rewrite decide_True; [done | by apply list_elem_of_further].
      * rewrite decide_False; [done|].
        intros [?|?]%elem_of_cons; [by apply Hne | by apply Hin].
Qed.

Lemma lookup_foldl_close h (ds : list StoreDetails) (hs : list Handle) :
  foldl (λ hs d, alter closeH (db d) hs) hs ds !! h =
    if decide (h ∈ db <$> ds) then closeH <$> hs !! h else hs !! h.
Proof.
  revert hs. induction ds as [|d rest IH]; intros hs.
  - case_decide as Hin; [by apply elem_of_nil in Hin | done].
  - cbn [foldl]. rewrite IH, fmap_cons.
    destruct (decide (h = db d)) as [->|Hne].
    + rewrite list_lookup_alter_eq.
      rewrite (decide_True (P := _ ∈ _ :: _)) by apply list_elem_of_here.
      case_decide; [|done]. by destruct (hs !! db d).
    + rewrite list_lookup_alter_ne by done.
      case_decide as Hin.
      * rewrite decide_True; [done | by apply list_elem_of_further].
      * rewrite decide_False; [done|].
        intros [?|?]%elem_of_cons; [by apply Hne | by apply Hin].
Qed.

Lemma closes_of_events_notin fmt h ds :
  h ∉ db <$> ds → closes_of h (close_events fmt ds) = 0.
Proof.
  unfold closes_of. induction ds as [|d rest IH]; [done|].
  rewrite fmap_cons, not_elem_of_cons. intros [Hne Hnin].
  cbn [close_events count].
  rewrite !bool_decide_eq_false_2 by congruence. by rewrite IH.
Qed.

Lemma closes_of_events_in fmt d ds :
  NoDup (db <$> ds) → d ∈ ds → closes_of (db d) (close_events fmt ds) = 1.
Proof.
  induction ds as [|d0 rest IH].
  - by intros _ ?%elem_of_nil.
  - rewrite fmap_cons, NoDup_cons. intros [Hnin Hnd] Hin.
    change (closes_of (db d) (close_events fmt (d0 :: rest)))
      with ((if bool_decide (LogInfo fmt (name d0) = DbClose (db d)) then 1 else 0)
            + ((if bool_decide (DbClose (db d0) = DbClose (db d)) then 1 else 0)
               + closes_of (db d) (close_events fmt rest))).
    rewrite (bool_decide_eq_false_2 (LogInfo _ _ = _)) by congruence.
    apply elem_of_cons in Hin as [->|Hin].
    + rewrite bool_decide_eq_true_2 by done.
      by rewrite (closes_of_events_notin fmt (db d0) rest Hnin).
    + rewrite bool_decide_eq_false_2.
      * by rewrite IH.
      * intros [= Heq]. apply Hnin. rewrite Heq. by apply list_elem_of_fmap_2.
Qed.

Lemma closes_of_app h l1 l2 : closes_of h (l1 ++ l2) = closes_of h l1 + closes_of h l2.
Proof. apply count_app. Qed.

Lemma errors_close_events fmt ds : errors_logged (close_events fmt ds) = 0.
Proof. unfold errors_logged. induction ds; simpl; done. Qed.

(** *** Entries of a well-formed registry *)

Lemma NoDup_fmap_eq {A B} (f : A → B) (l : list A) x y :
  NoDup (f <$> l) → x ∈ l → y ∈ l → f x = f y → x = y.
Proof.
  induction l as [|a l IH]; simpl.
  - by intros _ ?%elem_of_nil.
  - rewrite NoDup_cons. intros [Hnin Hnd] [->|Hx]%elem_of_cons [->|Hy]%elem_of_cons Hf;
      try done.
    + exfalso. apply Hnin. rewrite Hf. by apply list_elem_of_fmap_2.
    + exfalso. apply Hnin. rewrite <- Hf. by apply list_elem_of_fmap_2.
    + by apply IH.
Qed.

Lemma wf_get_value w k v :
  wf w → JsMap.get k (_stores w) = Some v →
  v ∈ JsMap.values (_stores w) ∧ name v = k.
Proof.
  intros Hwf Hg. split; [|by destruct (wf_entry _ _ _ Hwf Hg)].
  apply get_Some_elem in Hg. by apply (list_elem_of_fmap_2 snd) in Hg.
Qed.

Lemma wf_value_get w d :
  wf w → d ∈ JsMap.values (_stores w) → JsMap.get (name d) (_stores w) = Some d.
Proof.
  intros Hwf Hin. apply list_elem_of_fmap in Hin as ([k d'] & -> & Hin).
  pose proof Hwf as [Hk _ He]. rewrite Forall_forall in He.
  destruct (He _ Hin) as [Hn _]. simpl in *. rewrite Hn. by apply elem_get.
Qed.

Lemma wf_same_db w d v :
  wf w → d ∈ JsMap.values (_stores w) → v ∈ JsMap.values (_stores w) →
  db d = db v → d = v.
Proof. intros [_ Hdb _]. by apply NoDup_fmap_eq. Qed.

Lemma wf_same_name w d v :
  wf w → d ∈ JsMap.values (_stores w) → v ∈ JsMap.values (_stores w) →
  name d = name v → d = v.
Proof.
  intros Hwf Hd Hv Hn. apply (wf_value_get _ _ Hwf) in Hd, Hv.
  rewrite Hn in Hd. congruence.
Qed.

(** The entries a loop calls [close()] on are the first ones of its list. *)
Lemma attempted_prefix closeFault ds :
  ∃ rest,
    ds = (closed_ok closeFault ds ++
          match first_failure closeFault ds with
          | None => []
          | Some (d, _) => [d]
          end) ++ rest.
Proof.
  induction ds as [|d ds IH]; simpl.
  - by exists [].
  - destruct (closeFault (db d)) as [e|]; simpl.
    + by exists ds.
    + destruct IH as [rest Hrest]. exists rest. by rewrite <- Hrest.
Qed.

Lemma attempted_elem closeFault ds d :
  d ∈ closed_ok closeFault ds ++
      match first_failure closeFault ds with
      | None => []
      | Some (d, _) => [d]
      end →
  d ∈ ds.
Proof.
  intros Hin. destruct (attempted_prefix closeFault ds) as [rest Hrest].
  rewrite Hrest. apply elem_of_app. by left.
Qed.

Lemma select_closed_NoDup now w :
  wf w →
  NoDup (db <$> select_closed now (_keepOpenInterval w) (JsMap.values (_stores w))).
Proof.
  intros [_ Hdb _]. eapply sublist_NoDup; [exact Hdb|].
  apply fmap_sublist, select_closed_sublist.
Qed.

Lemma idle_Num now T v :
  idle now (Num T) v = true ↔ (now - lastAccessed v > T)%Z.
Proof. unfold idle. simpl. rewrite bool_decide_eq_true. lia. Qed.

(** ** The sweep *)

(** C4, as amended. A sweep at time [now] closes and removes only idle
    entries, those with [now - lastAccessed > _keepOpenInterval], and, when
    no close fails, exactly those. An entry that is not idle, so one whose
    access time was refreshed within the threshold, stays in the registry,
    untouched, with no [close()] called on its handle, whatever else happens
    in the sweep. When no close fails, the sweep returns and every idle entry
    is gone from the registry, its handle closed by one call of [close()].
    The sweep adds no entry. *)
Theorem C4_sweep_evicts_exactly_idle
    (closeFault : nat → option DbError) (now : Z) (w : World) :
  wf w →
  let r := checkStorage closeFault now w in
  (∀ k v, JsMap.get k (_stores w) = Some v →
     idle now (_keepOpenInterval w) v = false →
     JsMap.get k (_stores r.2) = Some v ∧
     closes_of (db v) (log r.2) = closes_of (db v) (log w) ∧
     handles r.2 !! db v = handles w !! db v) ∧
  ((∀ h, closeFault h = None) →
     r.1 = Returned tt ∧
     ∀ k v, JsMap.get k (_stores w) = Some v →
       idle now (_keepOpenInterval w) v = true →
       JsMap.get k (_stores r.2) = None ∧
       closes_of (db v) (log r.2) = S (closes_of (db v) (log w)) ∧
       open_at (db v) r.2 = None) ∧
  (∀ k, JsMap.get k (_stores w) = None → JsMap.get k (_stores r.2) = None) ∧
  (∀ T v, idle now (Num T) v = true ↔ (now - lastAccessed v > T)%Z).
Proof.
  intros Hwf r. subst r. unfold checkStorage.
  set (ds := select_closed now (_keepOpenInterval w) (JsMap.values (_stores w))).
  destruct (close_loop_eq closeFault ds w) as (Hr & Hst & Hh & Hlog & _).
  cbv zeta in *.
  split; [|split; [|split]].
  - intros k v Hg Hidle.
    destruct (wf_get_value _ _ _ Hwf Hg) as [Hv Hn].
    assert (Hnot : ∀ d, d ∈ ds → d ≠ v).
    { intros d [_ Hd]%elem_of_select_closed ->. congruence. }
    assert (Hatt : ∀ d, d ∈ closed_ok closeFault ds ++
                          match first_failure closeFault ds with
                          | None => []
                          | Some (d, _) => [d]
                          end → db d ≠ db v).
    { intros d Hd%attempted_elem Heq. apply (Hnot d Hd).
      apply (wf_same_db w); try done.
      by apply elem_of_select_closed in Hd as [? _]. }
    split; [|split].
    + rewrite Hst, get_foldl_delete, decide_False; [done|].
      intros (d & Hnd & Hd)%list_elem_of_fmap.
      assert (d ∈ ds) as Hds by (apply (attempted_elem closeFault); apply elem_of_app; by left).
      apply (Hnot d Hds). apply (wf_same_name w); try done; [|congruence].
      by apply elem_of_select_closed in Hds as [? _].
    + rewrite Hlog, closes_of_app, closes_of_events_notin; [lia|].
      intros (d & Hdb & Hd)%list_elem_of_fmap. by apply (Hatt d Hd).
    + rewrite Hh, lookup_foldl_close, decide_False; [done|].
      intros (d & Hdb & Hd)%list_elem_of_fmap.
      apply (Hatt d); [apply elem_of_app; by left | done].
  - intros Hok.
    destruct (closed_ok_all closeFault ds) as [Hall Hnone]; [by intros; apply Hok|].
    rewrite Hnone, Hall in *. split; [done|].
    intros k v Hg Hidle.
    destruct (wf_get_value _ _ _ Hwf Hg) as [Hv Hn].
    assert (v ∈ ds) as Hds by (by apply elem_of_select_closed).
    split; [|split].
    + rewrite Hst, get_foldl_delete, decide_True; [done|].
      rewrite <- Hn. by apply list_elem_of_fmap_2.
    + rewrite Hlog, app_nil_r, closes_of_app, closes_of_events_in; [lia| |done].
      by apply select_closed_NoDup.
    + unfold open_at. rewrite Hh, lookup_foldl_close, decide_True
        by (by apply list_elem_of_fmap_2).
      by destruct (handles w !! db v).
  - intros k Hg. rewrite Hst, get_foldl_delete, Hg. by case_decide.
  - intros T v. apply idle_Num.
Qed.

Lemma name_in_db_in w (l : list StoreDetails) d :
  wf w →
  (∀ x, x ∈ l → x ∈ JsMap.values (_stores w)) →
  d ∈ JsMap.values (_stores w) →
  name d ∈ name <$> l → db d ∈ db <$> l.
Proof.
  intros Hwf Hl Hd (x & Hn & Hx)%list_elem_of_fmap.
  assert (x = d) as -> by (apply (wf_same_name w); auto).
  by apply list_elem_of_fmap_2.
Qed.

(** The boundary of C4: the threshold is 10 s, ["s1"] was last accessed at 5
    and ["s2"] at 6; at 10006 the first has been idle for more than the
    threshold and goes, the second for exactly the threshold and stays. *)
Lemma C4_witness :
  let w := run [CallWrite None 5 "s1" "k1" "v1"; CallGet None 6 "s2" "k1"]
             (constructor "/var/db" "10" (Num 10) ∅ true) in
  let r := checkStorage no_fault 10006 w in
  r.1 = Returned tt ∧
  JsMap.get "s1" (_stores r.2) = None ∧
  JsMap.get "s2" (_stores r.2) = Some {| lastAccessed := 6; name := "s2"; db := 1 |}.
Proof.
  intros w r.
  destruct (C4_sweep_evicts_exactly_idle no_fault 10006 w) as (Hkeep & Hall & _).
  - apply run_wf, constructor_wf.
  - destruct (Hall (λ _, eq_refl)) as [Hr Hgone]. split; [exact Hr|]. split.
    + apply (Hgone "s1" {| lastAccessed := 5; name := "s1"; db := 0 |});
        reflexivity.
    + apply (Hkeep "s2" {| lastAccessed := 6; name := "s2"; db := 1 |});
        reflexivity.
Defined.

(** C4 fails as stated. At 20000 both stores are idle; the close of the first
    fails, and the second, idle as it is, is neither closed nor removed by
    the sweep. *)
Lemma C4_counterexample :
  let r := checkStorage (fail_on 0 (IOError "disk")) 20000 two_stores in
  let s2 := {| lastAccessed := 6; name := "s2"; db := 1 |} in
  JsMap.get "s2" (_stores two_stores) = Some s2 ∧
  idle 20000 (_keepOpenInterval two_stores) s2 = true ∧
  JsMap.get "s2" (_stores r.2) = Some s2 ∧
  closes_of 1 (log r.2) = 0 ∧
  open_at 1 r.2 = Some "/var/db/s2".
Proof. vm_compute. repeat split. Qed.

(** C2, as amended. The sweep has no handler for a close that fails. When the
    close of a selected entry [v] fails, the sweep throws that failure to its
    caller and logs no failure; the entries selected before [v] have been
    closed and removed; [v] itself, on which [close()] was called, is still
    in the registry; the entries selected after [v] are still in the
    registry and [close()] was not called on them. When no close of a
    selected entry fails, the sweep returns, and logs no failure. *)
Theorem C2_sweep_stops_at_first_failed_close
    (closeFault : nat → option DbError) (now : Z) (w : World) :
  wf w →
  let ds := select_closed now (_keepOpenInterval w) (JsMap.values (_stores w)) in
  let r := checkStorage closeFault now w in
  (∀ pre v post e,
     ds = pre ++ v :: post →
     (∀ d, d ∈ pre → closeFault (db d) = None) →
     closeFault (db v) = Some e →
     r.1 = Thrown (DbExn e) ∧
     errors_logged (log r.2) = errors_logged (log w) ∧
     (∀ d, d ∈ pre →
        JsMap.get (name d) (_stores r.2) = None ∧
        closes_of (db d) (log r.2) = S (closes_of (db d) (log w))) ∧
     (JsMap.get (name v) (_stores r.2) = Some v ∧
      closes_of (db v) (log r.2) = S (closes_of (db v) (log w)) ∧
      handles r.2 !! db v = handles w !! db v) ∧
     (∀ d, d ∈ post →
        JsMap.get (name d) (_stores r.2) = Some d ∧
        closes_of (db d) (log r.2) = closes_of (db d) (log w) ∧
        handles r.2 !! db d = handles w !! db d)) ∧
  ((∀ d, d ∈ ds → closeFault (db d) = None) →
     r.1 = Returned tt ∧ errors_logged (log r.2) = errors_logged (log w)).
Proof.
  intros Hwf ds r. subst r. unfold checkStorage. fold ds.
  destruct (close_loop_eq closeFault ds w) as (Hr & Hst & Hh & Hlog & _).
  cbv zeta in *.
  assert (Herr : errors_logged (log (close_loop closeFault ds w).2) =
                 errors_logged (log w)).
  { rewrite Hlog. unfold errors_logged. rewrite count_app.
    fold (errors_logged (close_events "Closing storage (%s)"
            (closed_ok closeFault ds ++
             match first_failure closeFault ds with
             | None => [] | Some (d, _) => [d] end))).
    rewrite errors_close_events. lia. }
  split.
  - intros pre v post e Hds Hpre Hv.
    destruct (closed_ok_split closeFault pre v post e Hpre Hv) as [Hok Hff].
    rewrite <- Hds in Hok, Hff. rewrite Hok, Hff in *.
    pose proof (select_closed_NoDup now w Hwf) as Hnd. fold ds in Hnd.
    assert (Hval : ∀ d, d ∈ ds → d ∈ JsMap.values (_stores w)).
    { intros d Hd. by apply elem_of_select_closed in Hd as [? _]. }
    rewrite Hds in Hnd, Hval.
    rewrite fmap_app, fmap_cons in Hnd.
    apply NoDup_app in Hnd as (Hnd1 & Hdisj & Hnd2).
    apply NoDup_cons in Hnd2 as [Hvpost Hnd3].
    assert (Hnd' : NoDup (db <$> pre ++ [v])).
    { rewrite fmap_app. apply NoDup_app. split; [done|]. split; [|apply NoDup_singleton].
      intros x Hx ->%list_elem_of_singleton. apply (Hdisj _ Hx), list_elem_of_here. }
    assert (Hpre_val : ∀ x, x ∈ pre → x ∈ JsMap.values (_stores w)).
    { intros x Hx. apply Hval, elem_of_app. by left. }
    assert (Hv_val : v ∈ JsMap.values (_stores w)).
    { apply Hval, elem_of_app. right. apply list_elem_of_here. }
    assert (Hv_pre : db v ∉ db <$> pre).
    { intros Hin. apply (Hdisj _ Hin), list_elem_of_here. }
    split; [done|]. split; [done|]. split; [|split].
    + intros d Hd. split.
      * rewrite Hst, get_foldl_delete, decide_True; [done|].
        by apply list_elem_of_fmap_2.
      * rewrite Hlog, closes_of_app, closes_of_events_in; [lia|done|].
        apply elem_of_app. by left.
    + split; [|split].
      * rewrite Hst, get_foldl_delete, decide_False.
        -- by apply wf_value_get.
        -- intros Hin. apply Hv_pre. by apply (name_in_db_in w).
      * rewrite Hlog, closes_of_app, closes_of_events_in; [lia|done|].
        apply elem_of_app. right. apply list_elem_of_here.
      * by rewrite Hh, lookup_foldl_close, decide_False.
    + intros d Hd.
      assert (Hd_val : d ∈ JsMap.values (_stores w)).
      { apply Hval, elem_of_app. right. by apply list_elem_of_further. }
      assert (Hd_pre : db d ∉ db <$> pre).
      { intros Hin. apply (Hdisj _ Hin), list_elem_of_further.
        by apply list_elem_of_fmap_2. }
      assert (Hd_v : db d ≠ db v).
      { intros Heq. apply Hvpost. rewrite <- Heq. by apply list_elem_of_fmap_2. }
      split; [|split].
      * rewrite Hst, get_foldl_delete, decide_False.
        -- by apply wf_value_get.
        -- intros Hin. apply Hd_pre. by apply (name_in_db_in w).
      * rewrite Hlog, closes_of_app, closes_of_events_notin; [lia|].
        rewrite fmap_app. intros [?|Hin]%elem_of_app; [done|].
        apply list_elem_of_singleton in Hin. done.
      * by rewrite Hh, lookup_foldl_close, decide_False.
  - intros Hok. split; [|done].
    destruct (closed_ok_all closeFault ds Hok) as [_ Hnone].
    by rewrite Hnone in Hr.
Qed.

(** C2 fails as stated. Both stores are idle at 20000 and the close of the
    first one fails: the sweep throws, no failure is logged, the failing
    entry is still registered, and the other selected entry is neither closed
    nor removed. *)
Lemma C2_counterexample :
  let r := checkStorage (fail_on 0 (IOError "disk")) 20000 two_stores in
  r.1 = Thrown (DbExn (IOError "disk")) ∧
  errors_logged (log r.2) = 0 ∧
  JsMap.get "s1" (_stores r.2) = Some {| lastAccessed := 5; name := "s1"; db := 0 |} ∧
  JsMap.get "s2" (_stores r.2) = Some {| lastAccessed := 6; name := "s2"; db := 1 |} ∧
  closes_of 1 (log r.2) = 0.
Proof. vm_compute. repeat split. Qed.

(** The amended C2 on the same sweep. *)
Lemma C2_witness :
  let r := checkStorage (fail_on 0 (IOError "disk")) 20000 two_stores in
  r.1 = Thrown (DbExn (IOError "disk")) ∧
  JsMap.get "s2" (_stores r.2) = Some {| lastAccessed := 6; name := "s2"; db := 1 |}.
Proof.
  intros r.
  destruct (C2_sweep_stops_at_first_failed_close
              (fail_on 0 (IOError "disk")) 20000 two_stores) as [Hfail _].
  - apply run_wf, constructor_wf.
  - destruct (Hfail [] {| lastAccessed := 5; name := "s1"; db := 0 |}
                [{| lastAccessed := 6; name := "s2"; db := 1 |}] (IOError "disk"))
      as (Hr & _ & _ & _ & Hpost).
    + reflexivity.
    + intros d Hd. by apply elem_of_nil in Hd.
    + reflexivity.
    + split; [exact Hr|].
      apply (Hpost {| lastAccessed := 6; name := "s2"; db := 1 |}).
      apply list_elem_of_here.
Defined.

(** ** Shutdown *)

Lemma closed_ok_none closeFault ds :
  first_failure closeFault ds = None → closed_ok closeFault ds = ds.
Proof.
  induction ds as [|d ds IH]; simpl; [done|].
  destruct (closeFault (db d)); [done|]. intros ?. f_equal. auto.
Qed.

Lemma closes_close_events fmt ds : closes (close_events fmt ds) = length ds.
Proof. unfold closes. induction ds as [|d ds IH]; simpl; [done|]. by rewrite IH. Qed.

Lemma clearInterval_frame t w :
  _stores (clearInterval t w) = _stores w ∧
  handles (clearInterval t w) = handles w ∧
  log (clearInterval t w) = log w ∧
  intervals (clearInterval t w) =
    match t with Some i => <[i := None]> (intervals w) | None => intervals w end.
Proof. by destruct t. Qed.




(** ** Arming the sweep *)

Lemma crud_config a n w :
  crud_name a = Some n →
  intervals (perform a w) = intervals w ∧
  _keepOpenInterval (perform a w) = _keepOpenInterval w.
Proof.
  intros Ha. destruct a as [f now m k|f now m k v|f now m k| | |]; simplify_eq/=.
  - unfold get. pose proof (getStore_frame now n w) as (_ & _ & _ & Hk & _ & Hi).
    destruct (getStore now n w) as [store w1]; simpl in *.
    unfold db_get. by repeat case_match; simplify_eq; simpl.
  - unfold write. pose proof (getStore_frame now n w) as (_ & _ & _ & Hk & _ & Hi).
    destruct (getStore now n w) as [store w1]; simpl in *.
    unfold db_put. by repeat case_match; simplify_eq; simpl.
  - unfold del. pose proof (getStore_frame now n w) as (_ & _ & _ & Hk & _ & Hi).
    destruct (getStore now n w) as [store w1]; simpl in *.
    unfold db_del. by repeat case_match; simplify_eq; simpl.
Qed.

Lemma getStore_all_open now n w :
  Forall (λ hd, isOpen hd = true) (handles w) →
  Forall (λ hd, isOpen hd = true) (handles (getStore now n w).2).
Proof.
  intros Hop. unfold getStore. case_match; simpl; [done|].
  apply Forall_app. split; [done|]. by apply Forall_singleton.
Qed.

(** With a zero interval and no timer armed, nothing but [stop()] closes. *)
Lemma perform_never_armed a w :
  is_stop a = false →
  _keepOpenInterval w = Num 0 → intervals w = [] →
  closes (log w) = 0 → Forall (λ hd, isOpen hd = true) (handles w) →
  _keepOpenInterval (perform a w) = Num 0 ∧ intervals (perform a w) = [] ∧
  closes (log (perform a w)) = 0 ∧
  Forall (λ hd, isOpen hd = true) (handles (perform a w)).
Proof.
  intros Hns Hk Hi Hc Hop.
  destruct (crud_name a) as [n|] eqn:Ha.
  - destruct (crud_config a n w Ha) as [-> ->].
    rewrite (crud_closes a n w Ha).
    destruct (crud_registry a n w Ha) as (now & _ & ->).
    repeat split; try done. by apply getStore_all_open.
  - destruct a; try done; simpl.
    + unfold start. by rewrite Hk.
    + by rewrite Hi.
Qed.

(** C8. With [_keepOpenInterval] equal to 0, [start()] arms no timer and
    leaves the engine as it is; and an engine constructed with a zero
    interval, whatever is then called on it short of [stop()], and whatever
    timer fires, never calls [close()]: every handle it opened is open. With
    any other interval, [start()] arms one timer, whose delay is
    [_keepOpenInterval] and whose firing runs the sweep. *)
Theorem C8_sweep_armed_iff_interval_nonzero (w : World) :
  match _keepOpenInterval w with
  | Num 0 => start w = (Returned true, w)
  | delay =>
      (start w).1 = Returned true ∧
      _closeStorageTimer (start w).2 = Some (length (intervals w)) ∧
      intervals (start w).2 = intervals w ++ [Some delay] ∧
      ∀ closeFault now,
        perform (TimerFires (length (intervals w)) closeFault now) (start w).2 =
          (checkStorage closeFault now (start w).2).2
  end ∧
  (∀ dir cfg disk0 nfr acts,
     forallb (λ a, negb (is_stop a)) acts = true →
     let w' := run acts (constructor dir cfg (Num 0) disk0 nfr) in
     closes (log w') = 0 ∧
     intervals w' = [] ∧
     ∀ h hd, handles w' !! h = Some hd → isOpen hd = true).
Proof.
  split.
  - unfold start, setInterval.
    destruct (_keepOpenInterval w) as [|z] eqn:Hk; simpl.
    + repeat split. intros cf now. by rewrite list_lookup_middle.
    + destruct z; simpl; [done| |];
        (repeat split; intros cf now; by rewrite list_lookup_middle).
  - intros dir cfg disk0 nfr acts Hacts w'. subst w'.
    assert (Hgen : ∀ w0,
      _keepOpenInterval w0 = Num 0 → intervals w0 = [] →
      closes (log w0) = 0 → Forall (λ hd, isOpen hd = true) (handles w0) →
      closes (log (run acts w0)) = 0 ∧ intervals (run acts w0) = [] ∧
      Forall (λ hd, isOpen hd = true) (handles (run acts w0))).
    { induction acts as [|a acts IH]; intros w0 Hk Hi Hc Hop; simpl; [done|].
      simpl in Hacts. apply andb_prop in Hacts as [Ha Hacts].
      apply negb_true_iff in Ha.
      destruct (perform_never_armed a w0 Ha Hk Hi Hc Hop) as (? & ? & ? & ?).
      by apply IH. }
    destruct (Hgen (constructor dir cfg (Num 0) disk0 nfr)) as (Hc & Hi & Hop);
      try done.
    split; [done|]. split; [done|].
    intros h hd Hl. rewrite Forall_forall in Hop.
    apply Hop. by apply list_elem_of_lookup_2 in Hl.
Qed.

(** C8 on a run: interval 0, [start()], a write, and a timer that would fire
    a century later. *)
Lemma C8_witness :
  let w' := run [CallStart; CallWrite None 5 "s1" "k1" "v1";
                 TimerFires 0 no_fault 3155760000000]
              (constructor "/var/db" "0" (Num 0) ∅ true) in
  closes (log w') = 0 ∧ intervals w' = [].
Proof.
  intros w'.
  destruct (C8_sweep_armed_iff_interval_nonzero w') as [_ Hnever].
  destruct (Hnever "/var/db" "0" ∅ true
              [CallStart; CallWrite None 5 "s1" "k1" "v1";
               TimerFires 0 no_fault 3155760000000] eq_refl) as (Hc & Hi & _).
  by split.
Defined.

(** ** The read and delete routes *)

Lemma split_no_sep sep s : has_sep sep s = false → JsString.split sep s = [s].
Proof.
  induction s as [|c s IH]; simpl; [done|].
  case_decide; [done|]. intros Hs. by rewrite IH.
Qed.

Lemma split_cut sep n rest :
  has_sep sep n = false →
  JsString.split sep (n +:+ String sep rest) = n :: JsString.split sep rest.
Proof.
  induction n as [|c n IH]; simpl.
  - intros _. by rewrite decide_True.
  - case_decide; [done|]. intros Hs. by rewrite IH.
Qed.

Lemma split_head sep s : ∃ part parts, JsString.split sep s = part :: parts.
Proof.
  induction s as [|c s (part & parts & IH)]; simpl; [by eexists _, _|].
  case_decide; [by eexists _, _|]. rewrite IH. by eexists _, _.
Qed.

(** C9 fails as stated. The identifier [":"] is not rejected: the read route
    calls [get] with an empty name and an empty key, which opens a store
    named [""]. And the identifier is cut at every separator, not at the
    first: with ["x"] stored under key ["a"] of store ["s1"] and nothing under
    key ["a:b"], reading ["s1:a:b"] answers ["x"]. *)
Lemma C9_counterexample :
  let w := constructor "/var/db" "10" (Num 10) ∅ true in
  let r := setupReadRoute_cb None 1 (Some ":") w in
  r.2 = (get None 1 "" "" w).2 ∧
  JsMap.get "" (_stores r.2) = Some {| lastAccessed := 1; name := ""; db := 0 |} ∧
  let w1 := (write None 5 "s1" "a" "x" w).2 in
  (setupReadRoute_cb None 6 (Some "s1:a:b") w1).1 = Returned "x" ∧
  (get None 6 "s1" "a:b" w1).1 = Returned None.
Proof. vm_compute. repeat split. Qed.

(** C9, as amended. The read and the delete route reject, without calling
    the core, a missing identifier and an identifier with no separator. An
    identifier with a separator reaches the core with the text before its
    first separator as the store name; when it has exactly one separator,
    the key is the text after it. Name and key may be empty. The answer of
    the route is the result of that one core call, [null] mapped to 404 and
    [false] to 500. *)
Theorem C9_routes_split_and_reject
    (fault : option DbError) (now : Z) (w : World) :
  (setupReadRoute_cb fault now None w =
     (Thrown (HttpExn {| status := 404; message := "No ID specified!" |}), w) ∧
   setupDeleteRoute_cb fault now None w =
     (Thrown (HttpExn {| status := 404; message := "Invalid ID!" |}), w)) ∧
  (∀ id, has_sep ":" id = false →
     setupReadRoute_cb fault now (Some id) w =
       (Thrown (HttpExn {| status := 404; message := "Invalid ID!" |}), w) ∧
     setupDeleteRoute_cb fault now (Some id) w =
       (Thrown (HttpExn {| status := 404; message := "Invalid ID" |}), w)) ∧
  (∀ n k, has_sep ":" n = false → has_sep ":" k = false →
     setupReadRoute_cb fault now (Some (n +:+ ":" +:+ k)) w =
       (match (get fault now n k w).1 with
        | Returned (Some value) => Returned value
        | Returned None =>
            Thrown (HttpExn {| status := 404; message := "Ooops - can't find that key!" |})
        | Thrown e => Thrown e
        end, (get fault now n k w).2) ∧
     setupDeleteRoute_cb fault now (Some (n +:+ ":" +:+ k)) w =
       (match (del fault now n k w).1 with
        | Returned true => Returned tt
        | Returned false =>
            Thrown (HttpExn {| status := 500; message := "Ooops - we have had a problem" |})
        | Thrown e => Thrown e
        end, (del fault now n k w).2)) ∧
  (∀ n rest, has_sep ":" n = false →
     ∃ k, (setupReadRoute_cb fault now (Some (n +:+ ":" +:+ rest)) w).2 =
            (get fault now n k w).2 ∧
          (setupDeleteRoute_cb fault now (Some (n +:+ ":" +:+ rest)) w).2 =
            (del fault now n k w).2).
Proof.
  split; [done|]. split; [|split].
  - intros id Hid. unfold setupReadRoute_cb, setupDeleteRoute_cb.
    by rewrite (split_no_sep _ _ Hid).
  - intros n k Hn Hk. unfold setupReadRoute_cb, setupDeleteRoute_cb.
    change (n +:+ ":" +:+ k) with (n +:+ String ":" k).
    rewrite (split_cut _ _ _ Hn), (split_no_sep _ _ Hk). simpl.
    split.
    + by destruct (get fault now n k w) as [[[v|]|e] w1].
    + by destruct (del fault now n k w) as [[[|]|e] w1].
  - intros n rest Hn. unfold setupReadRoute_cb, setupDeleteRoute_cb.
    change (n +:+ ":" +:+ rest) with (n +:+ String ":" rest).
    rewrite (split_cut _ _ _ Hn).
    destruct (split_head ":" rest) as (k & parts & ->). simpl.
    exists k. split.
    + by destruct (get fault now n k w) as [[[v|]|e] w1].
    + by destruct (del fault now n k w) as [[[|]|e] w1].
Qed.

(** The amended C9 on ["s1:k1"] and on ["s1"]. *)
Lemma C9_witness :
  (setupReadRoute_cb None 7 (Some "s1:k1") two_stores).1 = Returned "v1" ∧
  setupReadRoute_cb None 7 (Some "s1") two_stores =
    (Thrown (HttpExn {| status := 404; message := "Invalid ID!" |}), two_stores).
Proof.
  destruct (C9_routes_split_and_reject None 7 two_stores) as (_ & Hno & Hone & _).
  split.
  - destruct (Hone "s1" "k1" eq_refl eq_refl) as [Hr _].
    change ("s1" +:+ ":" +:+ "k1") with "s1:k1" in Hr. rewrite Hr. reflexivity.
  - apply (Hno "s1" eq_refl).
Defined.

(** ** The scenarios of the specification, run on the model *)

Example read_miss :
  (get None 7 "s1" "nope" two_stores).1 = Returned None.
Proof. reflexivity. Qed.

Example delete_then_read :
  (get None 9 "s1" "k1" (del None 8 "s1" "k1" two_stores).2).1 = Returned None.
Proof. vm_compute. reflexivity. Qed.

Example idempotent_delete :
  (del None 8 "s1" "never-existed" two_stores).1 = Returned true.
Proof. reflexivity. Qed.

(** An evicted store is reopened by the next access and still serves what
    was written to it. *)
Example idle_eviction_then_reopen :
  let w := (checkStorage no_fault 20000 two_stores).2 in
  _stores w = [] ∧
  (get None 20001 "s1" "k1" w).1 = Returned (Some "v1") ∧
  _stores (get None 20001 "s1" "k1" w).2 =
    [("s1", {| lastAccessed := 20001; name := "s1"; db := 2 |})].
Proof. vm_compute. repeat split. Qed.

(** After [stop()] the entries are still registered, with closed handles: a
    later [get] goes to the closed handle and answers [null]. *)
Example get_after_stop :
  (get None 30 "s1" "k1" (stop no_fault two_stores).2).1 = Returned None.
Proof. vm_compute. reflexivity. Qed.

(** ** Invariants of the reachable worlds *)

(** X1. In every world the engine can reach, every entry of the registry
    sits under its own name, its handle exists and persists to
    [<storageDir>/<name>], no two names share a handle, and no name is
    registered twice. *)
Theorem X1_registry_invariant (w : World) :
  reachable w →
  (∀ k v, JsMap.get k (_stores w) = Some v →
     name v = k ∧
     ∃ hd, handles w !! db v = Some hd ∧
           location hd = storePath (_storageDir w) k) ∧
  (∀ k1 v1 k2 v2,
     JsMap.get k1 (_stores w) = Some v1 → JsMap.get k2 (_stores w) = Some v2 →
     db v1 = db v2 → k1 = k2) ∧
  NoDup (JsMap.keys (_stores w)).
Proof.
  intros Hwf%reachable_wf. split; [|split].
  - intros k v. by apply wf_entry.
  - intros k1 v1 k2 v2 H1 H2 Hdb.
    destruct (wf_get_value _ _ _ Hwf H1) as [Hv1 <-].
    destruct (wf_get_value _ _ _ Hwf H2) as [Hv2 <-].
    by rewrite (wf_same_db w v1 v2).
  - by destruct Hwf.
Qed.

Lemma X1_witness :
  JsMap.get "s2" (_stores two_stores) =
    Some {| lastAccessed := 6; name := "s2"; db := 1 |} ∧
  ∃ hd, handles two_stores !! 1 = Some hd ∧ location hd = "/var/db/s2".
Proof.
  destruct (X1_registry_invariant two_stores) as (Hentry & _).
  - by eexists _, _, _, _, _, _.
  - split; [reflexivity|].
    by destruct (Hentry "s2" {| lastAccessed := 6; name := "s2"; db := 1 |} eq_refl)
      as [_ Hhd].
Defined.

Lemma leakfree_ext w w' :
  _stores w' = _stores w → handles w' = handles w → leakfree w → leakfree w'.
Proof. unfold leakfree, open_at. by intros -> ->. Qed.

Lemma getStore_leakfree now n w : leakfree w → leakfree (getStore now n w).2.
Proof.
  intros Hl h loc Ho.
  assert (Hold : open_at h w = Some loc →
            ∃ k v, JsMap.get k (_stores (getStore now n w).2) = Some v ∧ db v = h).
  { intros (k & v & Hg & Hdb)%Hl.
    destruct (getStore_keeps now n w k v Hg) as (d' & Hg' & Hdb' & _).
    exists k, d'. split; [done | congruence]. }
  destruct (JsMap.get n (_stores w)) as [d|] eqn:Hg.
  - rewrite (getStore_hit _ _ d) in Ho by done. by apply Hold.
  - pose proof (getStore_lookup now n w) as Hnew.
    rewrite getStore_miss in Ho, Hnew by done. simpl in Hnew.
    unfold open_at in Ho. simpl in Ho.
    destruct (decide (h < length (handles w))) as [Hlt|Hge].
    + rewrite lookup_app_l in Ho by done. by apply Hold.
    + destruct (decide (h = length (handles w))) as [->|Hne].
      * rewrite getStore_miss by done. simpl. eauto.
      * rewrite lookup_ge_None_2 in Ho; [done|].
        rewrite length_app. simpl. lia.
Qed.

Lemma close_handles_open h loc (ds : list StoreDetails) w w' :
  handles w' = foldl (λ hs d, alter closeH (db d) hs) (handles w) ds →
  open_at h w' = Some loc → open_at h w = Some loc ∧ h ∉ db <$> ds.
Proof.
  intros Hh. unfold open_at. rewrite Hh, lookup_foldl_close.
  case_decide; [|done]. by destruct (handles w !! h).
Qed.

Lemma stop_registry closeFault w :
  _stores (stop closeFault w).2 = _stores w ∧
  handles (stop closeFault w).2 =
    foldl (λ hs d, alter closeH (db d) hs) (handles w)
      (closed_ok closeFault (JsMap.values (_stores w))) ∧
  intervals (stop closeFault w).2 =
    match _closeStorageTimer w with
    | Some i => <[i := None]> (intervals w)
    | None => intervals w
    end.
Proof.
  unfold stop.
  destruct (clearInterval_frame (_closeStorageTimer w) w) as (Hs1 & Hh1 & _ & Hi1).
  destruct (stop_loop_eq closeFault
              (JsMap.values (_stores (clearInterval (_closeStorageTimer w) w)))
              (clearInterval (_closeStorageTimer w) w))
    as (_ & Hst & Hh & _ & _ & _ & _ & _ & Hiv).
  cbv zeta in *. rewrite Hst, Hh, Hiv, Hs1, Hh1, Hi1. done.
Qed.

Lemma sweep_registry closeFault now w :
  let ok := closed_ok closeFault
              (select_closed now (_keepOpenInterval w) (JsMap.values (_stores w))) in
  _stores (checkStorage closeFault now w).2 =
    foldl (λ m d, JsMap.delete (name d) m) (_stores w) ok ∧
  handles (checkStorage closeFault now w).2 =
    foldl (λ hs d, alter closeH (db d) hs) (handles w) ok ∧
  (∀ d, d ∈ ok → d ∈ JsMap.values (_stores w) ∧ idle now (_keepOpenInterval w) d = true).
Proof.
  intros ok. unfold checkStorage.
  destruct (close_loop_eq closeFault
              (select_closed now (_keepOpenInterval w) (JsMap.values (_stores w))) w)
    as (_ & Hst & Hh & _).
  cbv zeta in *. split; [done|]. split; [done|].
  intros d Hd. apply elem_of_select_closed.
  apply (attempted_elem closeFault). apply elem_of_app. by left.
Qed.

(** An entry the sweep did not get to close is still registered. *)
Lemma sweep_keeps_unclosed closeFault now w k v :
  wf w → JsMap.get k (_stores w) = Some v →
  db v ∉ db <$> closed_ok closeFault
                  (select_closed now (_keepOpenInterval w) (JsMap.values (_stores w))) →
  JsMap.get k (_stores (checkStorage closeFault now w).2) = Some v.
Proof.
  intros Hwf Hg Hnin.
  destruct (sweep_registry closeFault now w) as (Hst & _ & Hok). cbv zeta in *.
  destruct (wf_get_value _ _ _ Hwf Hg) as [Hv Hn].
  rewrite Hst, get_foldl_delete, decide_False; [done|].
  intros Hin. apply Hnin. rewrite <- Hn in Hin.
  apply (name_in_db_in w); try done. intros x Hx. by apply Hok.
Qed.

Lemma perform_leakfree a w : wf w → leakfree w → leakfree (perform a w).
Proof.
  intros Hwf Hl. destruct (crud_name a) as [n|] eqn:Ha.
  - destruct (crud_registry a n w Ha) as (now & Hst & Hh).
    apply (leakfree_ext (getStore now n w).2); try done.
    by apply getStore_leakfree.
  - destruct a as [| | | |closeFault|t closeFault now]; try done; simpl.
    + unfold start, setInterval. case_match; [|done].
      by apply (leakfree_ext w).
    + destruct (stop_registry closeFault w) as (Hst & Hh & _).
      intros h loc Ho.
      destruct (close_handles_open _ _ _ w _ Hh Ho) as [Ho' _].
      rewrite Hst. apply (Hl _ _ Ho').
    + repeat case_match; try done.
      destruct (sweep_registry closeFault now w) as (_ & Hh & _). cbv zeta in *.
      intros h loc Ho.
      destruct (close_handles_open _ _ _ w _ Hh Ho) as [Ho' Hnin].
      destruct (Hl _ _ Ho') as (k & v & Hg & <-).
      exists k, v. split; [|done]. by apply sweep_keeps_unclosed.
Qed.

(** X2. No handle leaks in sequential execution: in every world the engine
    can reach, whatever calls were made, whatever timers fired and whichever
    closes failed, every handle that is open is the handle of a registered
    entry. *)
Theorem X2_no_handle_leak (w : World) :
  reachable w →
  ∀ h loc, open_at h w = Some loc →
    ∃ k v, JsMap.get k (_stores w) = Some v ∧ db v = h.
Proof.
  intros (dir & cfg & parsed & disk0 & nfr & acts & ->).
  assert (Hgen : ∀ w0, wf w0 → leakfree w0 → leakfree (run acts w0)).
  { induction acts as [|a acts IH]; intros w0 Hwf Hl; simpl; [done|].
    apply IH; [by apply perform_wf | by apply perform_leakfree]. }
  apply Hgen; [apply constructor_wf|].
  intros h loc Ho. unfold open_at in Ho. simpl in Ho. done.
Qed.

(** After a sweep that evicted ["s1"], the one open handle is that of
    ["s2"]. *)
Lemma X2_witness :
  let w := run [CallStart; CallWrite None 5 "s1" "k1" "v1";
                CallWrite None 6 "s2" "k2" "v2"; TimerFires 0 no_fault 10006]
             (constructor "/var/db" "10" (Num 10) ∅ true) in
  open_at 0 w = None ∧ open_at 1 w = Some "/var/db/s2" ∧
  ∃ k v, JsMap.get k (_stores w) = Some v ∧ db v = 1.
Proof.
  intros w. split; [reflexivity|]. split; [reflexivity|].
  apply (X2_no_handle_leak w) with (loc := "/var/db/s2").
  - by eexists _, _, _, _, _, _.
  - reflexivity.
Defined.

(** *** Registered stores stay open *)

Lemma all_open_ext w w' :
  _stores w' = _stores w → handles w' = handles w → all_open w → all_open w'.
Proof. unfold all_open, open_at. by intros -> ->. Qed.

Lemma target_served n w :
  wf w → all_open w → target n w = Some (storePath (_storageDir w) n).
Proof.
  intros Hwf Ha. destruct (target n w) as [loc|] eqn:Ht.
  - by rewrite (target_wf n w loc).
  - unfold target in Ht. destruct (JsMap.get n (_stores w)) as [d|] eqn:Hg; [|done].
    destruct (Ha n d Hg) as [loc Hloc]. congruence.
Qed.

Lemma getStore_registered_open now n w : all_open w → all_open (getStore now n w).2.
Proof.
  intros Ha k v Hg. destruct (decide (k = n)) as [->|Hne].
  - rewrite getStore_lookup in Hg. injection Hg as <-.
    rewrite getStore_target. unfold target.
    destruct (JsMap.get n (_stores w)) as [d|] eqn:Hd; [by apply (Ha n) | done].
  - rewrite getStore_other in Hg by done.
    destruct (Ha k v Hg) as [loc Hloc]. exists loc.
    unfold open_at in *. destruct (handles w !! db v) as [hd|] eqn:Hl; [|done].
    by rewrite (getStore_handles now n w _ _ Hl).
Qed.

Lemma sweep_all_open closeFault now w :
  wf w → all_open w → all_open (checkStorage closeFault now w).2.
Proof.
  intros Hwf Ha k v Hg.
  destruct (sweep_registry closeFault now w) as (Hst & Hh & Hok). cbv zeta in *.
  rewrite Hst, get_foldl_delete in Hg. case_decide as Hk; [done|].
  destruct (wf_get_value _ _ _ Hwf Hg) as [Hv Hn].
  destruct (Ha k v Hg) as [loc Hloc]. exists loc.
  unfold open_at. rewrite Hh, lookup_foldl_close, decide_False; [done|].
  intros (d & Hdb & Hd)%list_elem_of_fmap. apply Hk.
  destruct (Hok d Hd) as [Hdv _].
  rewrite <- Hn, (wf_same_db w v d) by done. by apply list_elem_of_fmap_2.
Qed.

Lemma perform_all_open a w : calm a → wf w → all_open w → all_open (perform a w).
Proof.
  intros Hc Hwf Ha. destruct (crud_name a) as [n|] eqn:Hn.
  - destruct (crud_registry a n w Hn) as (now & Hst & Hh).
    apply (all_open_ext (getStore now n w).2); try done.
    by apply getStore_registered_open.
  - destruct a as [| | | |closeFault|t closeFault now]; try done; simpl.
    + unfold start, setInterval. case_match; [|done]. by apply (all_open_ext w).
    + repeat case_match; try done. by apply sweep_all_open.
Qed.


Lemma run_all_open acts w :
  Forall calm acts → wf w → all_open w → all_open (run acts w).
Proof.
  intros Hcalm. revert w.
  induction Hcalm as [|a acts Ha Hacts IH]; intros w Hwf Hop; simpl; [done|].
  apply IH; [by apply perform_wf | by apply perform_all_open].
Qed.



(** X4. A sweep that returns is invisible to readers: when the handles of the
    registered stores are open, every [get], on whichever store and key,
    answers after the sweep what it would have answered before it; an
    evicted store is reopened on the same directory. *)
Theorem X4_sweep_invisible_to_get
    (closeFault : nat → option DbError) (now : Z) (w : World) :
  wf w →
  (∀ k v, JsMap.get k (_stores w) = Some v → is_Some (open_at (db v) w)) →
  (checkStorage closeFault now w).1 = Returned tt →
  ∀ fault t n k,
    (get fault t n k (checkStorage closeFault now w).2).1 = (get fault t n k w).1.
Proof.
  intros Hwf Hop _ fault t n k. rewrite !get_result.
  rewrite (target_served n w), (target_served n (checkStorage closeFault now w).2);
    try done; [|by apply checkStorage_wf | by apply sweep_all_open].
  unfold checkStorage.
  destruct (close_loop_eq closeFault
              (select_closed now (_keepOpenInterval w) (JsMap.values (_stores w))) w)
    as (_ & _ & _ & _ & Hdisk & Hdir & _).
  cbv zeta in *. unfold contents. by rewrite Hdisk, Hdir.
Qed.

Lemma X4_witness :
  (get None 20001 "s1" "k1" (checkStorage no_fault 20000 two_stores).2).1 =
    Returned (Some "v1").
Proof.
  rewrite (X4_sweep_invisible_to_get no_fault 20000 two_stores).
  - reflexivity.
  - apply run_wf, constructor_wf.
  - apply run_all_open; [repeat constructor | apply constructor_wf |].
    intros k v Hg. simpl in Hg. done.
  - reflexivity.
Defined.

(** *** Sweeping again *)

Lemma idle_mono now now' i v :
  (now' ≤ now)%Z → idle now' i v = true → idle now i v = true.
Proof.
  unfold idle. destruct i as [|T]; simpl; [done|].
  rewrite !bool_decide_eq_true. lia.
Qed.

Lemma select_closed_none now i vs :
  (∀ v, v ∈ vs → idle now i v = false) → select_closed now i vs = [].
Proof.
  induction vs as [|d rest IH]; simpl; [done|]. intros Hno.
  rewrite (Hno d) by apply list_elem_of_here.
  apply IH. intros v ?. apply Hno. by apply list_elem_of_further.
Qed.

(** X5. After a sweep at time [now] in which no close failed, a second sweep
    at the same or an earlier time finds nothing to do: it returns, calls
    [close()] on nothing and leaves the world as it is. *)
Theorem X5_second_sweep_is_a_no_op
    (closeFault closeFault' : nat → option DbError) (now now' : Z) (w : World) :
  wf w →
  (∀ h, closeFault h = None) →
  (now' ≤ now)%Z →
  checkStorage closeFault' now' (checkStorage closeFault now w).2 =
    (Returned tt, (checkStorage closeFault now w).2).
Proof.
  intros Hwf Hok Hle.
  pose proof (checkStorage_wf closeFault now w Hwf) as Hwf1.
  destruct (sweep_registry closeFault now w) as (Hst & _ & _). cbv zeta in *.
  destruct (closed_ok_all closeFault
              (select_closed now (_keepOpenInterval w) (JsMap.values (_stores w))))
    as [Hall _]; [by intros; apply Hok|].
  rewrite Hall in Hst.
  assert (Hk : _keepOpenInterval (checkStorage closeFault now w).2 = _keepOpenInterval w).
  { unfold checkStorage.
    by destruct (close_loop_eq closeFault
                   (select_closed now (_keepOpenInterval w) (JsMap.values (_stores w))) w)
      as (_ & _ & _ & _ & _ & _ & -> & _). }
  unfold checkStorage at 1. rewrite select_closed_none; [done|].
  intros v Hv. rewrite Hk.
  destruct (idle now' (_keepOpenInterval w) v) eqn:Hidle; [|done]. exfalso.
  apply (idle_mono now) in Hidle; [|done].
  apply (wf_value_get _ _ Hwf1) in Hv.
  rewrite Hst, get_foldl_delete in Hv. case_decide as Hin; [done|].
  apply Hin. apply list_elem_of_fmap_2, elem_of_select_closed.
  split; [|done]. by destruct (wf_get_value _ _ _ Hwf Hv).
Qed.

Lemma X5_witness :
  checkStorage (fail_on 1 (IOError "disk")) 10006
      (checkStorage no_fault 10006 two_stores).2 =
    (Returned tt, (checkStorage no_fault 10006 two_stores).2).
Proof.
  apply X5_second_sweep_is_a_no_op.
  - apply run_wf, constructor_wf.
  - reflexivity.
  - lia.
Defined.

(** ** More on the CRUD calls *)

Lemma stop_returned closeFault w :
  (stop closeFault w).1 = Returned tt →
  closed_ok closeFault (JsMap.values (_stores w)) = JsMap.values (_stores w).
Proof.
  unfold stop.
  destruct (clearInterval_frame (_closeStorageTimer w) w) as (Hs1 & _).
  destruct (stop_loop_eq closeFault
              (JsMap.values (_stores (clearInterval (_closeStorageTimer w) w)))
              (clearInterval (_closeStorageTimer w) w)) as (Hr & _).
  cbv zeta in Hr. rewrite Hs1 in *. intros Hret. rewrite Hret in Hr.
  apply closed_ok_none.
  by destruct (first_failure closeFault (JsMap.values (_stores w))) as [[d e]|].
Qed.

(** X6. Once [stop()] has returned, the stores that were registered are
    still registered, on closed handles, and nothing reopens them: every
    [get] on such a store answers [null], and every [write] and [del] on it
    answers [false]. *)
Theorem X6_use_after_stop_fails
    (closeFault : nat → option DbError) (w : World) (n : string) (v : StoreDetails) :
  wf w →
  (stop closeFault w).1 = Returned tt →
  JsMap.get n (_stores w) = Some v →
  let w' := (stop closeFault w).2 in
  JsMap.get n (_stores w') = Some v ∧
  ∀ fault t k value,
    (get fault t n k w').1 = Returned None ∧
    (write fault t n k value w').1 = Returned false ∧
    (del fault t n k w').1 = Returned false.
Proof.
  intros Hwf Hret Hg w'. subst w'.
  destruct (stop_registry closeFault w) as (Hst & Hh & _).
  rewrite (stop_returned _ _ Hret) in Hh.
  destruct (wf_get_value _ _ _ Hwf Hg) as [Hv _].
  assert (Ht : target n (stop closeFault w).2 = None).
  { unfold target, open_at. rewrite Hst, Hg, Hh, lookup_foldl_close.
    rewrite decide_True by (by apply list_elem_of_fmap_2).
    by destruct (handles w !! db v). }
  split; [by rewrite Hst|].
  intros fault t k value.
  rewrite get_result.
  destruct (write_result fault t n k value (stop closeFault w).2) as [-> _].
  destruct (del_result fault t n k (stop closeFault w).2) as [-> _].
  rewrite Ht. by destruct fault.
Qed.

Lemma X6_witness :
  let w' := (stop no_fault two_stores).2 in
  (get None 30 "s1" "k1" w').1 = Returned None ∧
  (write None 30 "s1" "k3" "v3" w').1 = Returned false.
Proof.
  intros w'.
  destruct (X6_use_after_stop_fails no_fault two_stores "s1"
              {| lastAccessed := 5; name := "s1"; db := 0 |}) as [_ Hfail].
  - apply run_wf, constructor_wf.
  - reflexivity.
  - reflexivity.
  - destruct (Hfail None 30%Z "k1" "v3") as (Hget & _ & _).
    destruct (Hfail None 30%Z "k3" "v3") as (_ & Hwrite & _).
    by split.
Defined.

(** A CRUD call on [n] does not change where [n] is served from. *)
Lemma target_after now n w w' :
  _stores w' = _stores (getStore now n w).2 →
  handles w' = handles (getStore now n w).2 →
  target n w' = target n w.
Proof.
  intros Hst Hh. unfold target at 1. rewrite Hst, getStore_lookup.
  unfold open_at. rewrite Hh. apply getStore_target.
Qed.

(** X7. Within a store, keys are independent: a [write] or a [del] on key
    [k2], succeeding or not, changes nothing of what a [get] on another key
    [k] of the same store answers. *)
Theorem X7_other_keys_untouched
    (f1 fault : option DbError) (t1 t : Z) (s k k2 v : string) (w : World) :
  k ≠ k2 →
  (get fault t s k (write f1 t1 s k2 v w).2).1 = (get fault t s k w).1 ∧
  (get fault t s k (del f1 t1 s k2 w).2).1 = (get fault t s k w).1.
Proof.
  intros Hne. rewrite !get_result. destruct fault as [e|]; [done|]. split.
  - destruct (write_result f1 t1 s k2 v w) as [_ Hdisk].
    destruct (write_registry f1 t1 s k2 v w) as (Hst & Hh & _).
    rewrite (target_after t1 s w) by done.
    destruct (target s w) as [loc|]; [|done].
    unfold contents. rewrite Hdisk. destruct f1 as [e|]; [done|].
    rewrite lookup_insert_eq. simpl. by rewrite lookup_insert_ne.
  - destruct (del_result f1 t1 s k2 w) as [_ Hdisk].
    destruct (del_registry f1 t1 s k2 w) as (Hst & Hh & _).
    rewrite (target_after t1 s w) by done.
    destruct (target s w) as [loc|]; [|done].
    unfold contents. rewrite Hdisk. destruct f1 as [e|]; [done|].
    rewrite lookup_insert_eq. simpl. by rewrite lookup_delete_ne.
Qed.

Lemma X7_witness :
  (get None 9 "s1" "k1" (write None 8 "s1" "k9" "v9" two_stores).2).1 =
    Returned (Some "v1").
Proof.
  destruct (X7_other_keys_untouched None None 8 9 "s1" "k1" "k9" "v9" two_stores)
    as [Hw _].
  - discriminate.
  - rewrite Hw. reflexivity.
Defined.

(** What a [get] on another store answers depends on nothing a CRUD call on
    [s] changes, as long as the call writes only under the directory of
    [s]. *)
Lemma get_other_store s s2 now w w' :
  wf w → s2 ≠ s →
  _stores w' = _stores (getStore now s w).2 →
  handles w' = handles (getStore now s w).2 →
  _storageDir w' = _storageDir w →
  (∀ loc, loc ≠ storePath (_storageDir w) s → disk w' !! loc = disk w !! loc) →
  ∀ fault t k, (get fault t s2 k w').1 = (get fault t s2 k w).1.
Proof.
  intros Hwf Hne Hst Hh Hdir Hdisk fault t k. rewrite !get_result.
  destruct fault as [e|]; [done|].
  assert (target s2 w' = target s2 w) as ->.
  { rewrite <- (target_getStore_other now s s2 w) by done.
    apply target_ext; try done.
    by destruct (getStore_frame now s w) as (_ & _ & -> & _). }
  destruct (target s2 w) as [loc2|] eqn:Ht2; [|done].
  apply (target_wf _ _ _ Hwf) in Ht2. unfold contents.
  rewrite Hdisk; [done|]. subst. by intros ?%storePath_inj.
Qed.

(** X8. If [del(s, k)] returns success, a [get(s, k)] that follows answers
    [null]; and the delete changes nothing of what a [get] on any other
    store answers. *)
Theorem X8_del_then_get_and_isolation
    (f1 : option DbError) (t1 : Z) (s k : string) (w : World) :
  wf w →
  (del f1 t1 s k w).1 = Returned true →
  let w' := (del f1 t1 s k w).2 in
  (∀ fault t2, (get fault t2 s k w').1 = Returned None) ∧
  (∀ f2 t2 s2 k2, s2 ≠ s → (get f2 t2 s2 k2 w').1 = (get f2 t2 s2 k2 w).1).
Proof.
  intros Hwf Hok w'. subst w'. split.
  - intros fault t2. destruct fault as [e|]; [by rewrite get_result|].
    by apply del_then_get.
  - intros f2 t2 s2 k2 Hne.
    destruct (del_result f1 t1 s k w) as [_ Hdisk].
    destruct (del_registry f1 t1 s k w) as (Hst & Hh & Hdir).
    apply (get_other_store s s2 t1 w); try done.
    intros loc Hloc. rewrite Hdisk.
    destruct f1 as [e|]; [done|].
    destruct (target s w) as [loc1|] eqn:Ht; [|done].
    apply (target_wf _ _ _ Hwf) in Ht. subst loc1.
    by rewrite lookup_insert_ne.
Qed.

Lemma X8_witness :
  let w' := (del None 8 "s1" "k1" two_stores).2 in
  (get None 9 "s1" "k1" w').1 = Returned None ∧
  (get None 9 "s2" "k2" w').1 = Returned (Some "v2").
Proof.
  intros w'.
  destruct (X8_del_then_get_and_isolation None 8 "s1" "k1" two_stores) as [Hgone Hiso].
  - apply run_wf, constructor_wf.
  - reflexivity.
  - split; [apply Hgone|]. fold w'. rewrite Hiso by discriminate. reflexivity.
Defined.

(** ** More on the routes *)

Lemma write_then_get (f1 : option DbError) (t1 t2 : Z) (s k v : string) (w : World) :
  (write f1 t1 s k v w).1 = Returned true →
  (get None t2 s k (write f1 t1 s k v w).2).1 = Returned (Some v).
Proof.
  intros Hok.
  destruct (write_result f1 t1 s k v w) as [Hres Hdisk].
  destruct (write_registry f1 t1 s k v w) as (Hst & Hh & _).
  rewrite Hres in Hok. destruct f1 as [e|]; [done|].
  rewrite get_result, (target_after t1 s w) by done.
  destruct (target s w) as [loc|]; [|done].
  unfold contents. rewrite Hdisk, lookup_insert_eq. simpl.
  by rewrite lookup_insert_eq.
Qed.

(** X9. The identifier the create route answers reads back: when name and
    key hold no separator, a create that succeeds answers [name:key], and the
    read route, given that identifier (its persistence call not failing),
    answers the value that was written. *)
Theorem X9_created_id_reads_back
    (fault : option DbError) (t1 t2 : Z) (n k v id : string) (w w' : World) :
  has_sep ":" n = false → has_sep ":" k = false →
  setupCreateRoute_cb fault t1
    {| body_name := Some n; body_key := Some k; body_value := Some v |} w =
    (Returned id, w') →
  id = n +:+ ":" +:+ k ∧
  (setupReadRoute_cb None t2 (Some id) w').1 = Returned v.
Proof.
  intros Hn Hk. unfold setupCreateRoute_cb. simpl.
  pose proof (write_then_get fault t1 t2 n k v w) as Hrt.
  destruct (write fault t1 n k v w) as [[[|]|e] w1]; simpl in *; intros [= <- <-].
  split; [done|]. specialize (Hrt eq_refl).
  unfold setupReadRoute_cb.
  change (n +:+ ":" +:+ k) with (n +:+ String ":" k).
  rewrite (split_cut _ _ _ Hn), (split_no_sep _ _ Hk). simpl.
  destruct (get None t2 n k w1) as [[[x|]|e] w2]; simpl in *; by simplify_eq.
Qed.

Lemma X9_witness :
  let w := constructor "/var/db" "10" (Num 10) ∅ true in
  let r := setupCreateRoute_cb None 5
             {| body_name := Some "s1"; body_key := Some "k1"; body_value := Some "v1" |}
             w in
  r.1 = Returned "s1:k1" ∧ (setupReadRoute_cb None 6 (Some "s1:k1") r.2).1 = Returned "v1".
Proof.
  intros w r. split; [reflexivity|].
  by destruct (X9_created_id_reads_back None 5 6 "s1" "k1" "v1" "s1:k1" w r.2
                 eq_refl eq_refl eq_refl) as [_ Hread].
Defined.

(** X10. The read route answers a value or the status 404, nothing else:
    it never lets an exception of the persistence layer through, it has no
    500, and when the persistence call fails the answer is 404 as for a key
    that is not there. *)
Theorem X10_read_route_errors_are_404
    (fault : option DbError) (now : Z) (id : option string) (w : World) :
  match (setupReadRoute_cb fault now id w).1 with
  | Returned _ => fault = None
  | Thrown (HttpExn e) => status e = 404%Z
  | Thrown (DbExn _) => False
  end.
Proof.
  unfold setupReadRoute_cb. destruct id as [id|]; simpl; [|done].
  destruct (JsString.split ":" id !! 0%nat) as [p0|]; simpl; [|done].
  destruct (JsString.split ":" id !! 1%nat) as [p1|]; simpl; [|done].
  pose proof (get_result fault now p0 p1 w) as Hres.
  destruct (get fault now p0 p1 w) as [[[x|]|e] w1]; simpl in *; try done.
  by destruct fault.
Qed.

(** X11. The create route rejects with 404, before anything is touched, a
    body in which the name, the key or the value is missing. On a complete
    body, and the delete route on an identifier with one separator, the
    answer is a success exactly when the persistence call succeeds (no fault
    from the environment and a handle that is open), and the status 500
    otherwise; deleting needs no key to be there. *)
Theorem X11_create_delete_status
    (fault : option DbError) (now : Z) (n k v : string) (w : World) :
  (∀ body,
     body_name body = None ∨ body_key body = None ∨ body_value body = None →
     setupCreateRoute_cb fault now body w =
       (Thrown (HttpExn {| status := 404; message := "Body invalid!" |}), w)) ∧
  (setupCreateRoute_cb fault now
     {| body_name := Some n; body_key := Some k; body_value := Some v |} w).1 =
    match fault, target n w with
    | None, Some _ => Returned (n +:+ ":" +:+ k)
    | _, _ =>
        Thrown (HttpExn {| status := 500; message := "Ooops - we have had a problem!" |})
    end ∧
  (has_sep ":" n = false → has_sep ":" k = false →
   (setupDeleteRoute_cb fault now (Some (n +:+ ":" +:+ k)) w).1 =
     match fault, target n w with
     | None, Some _ => Returned tt
     | _, _ =>
         Thrown (HttpExn {| status := 500; message := "Ooops - we have had a problem" |})
     end).
Proof.
  split; [|split].
  - intros [bn bk bv]. unfold setupCreateRoute_cb. simpl.
    intros [-> | [-> | ->]]; [done | by destruct bn | by destruct bn, bk].
  - unfold setupCreateRoute_cb. simpl.
    destruct (write_result fault now n k v w) as [Hres _].
    destruct (write fault now n k v w) as [r w1]. simpl in Hres. subst r.
    by destruct fault, (target n w).
  - intros Hn Hk. unfold setupDeleteRoute_cb.
    change (n +:+ ":" +:+ k) with (n +:+ String ":" k).
    rewrite (split_cut _ _ _ Hn), (split_no_sep _ _ Hk). simpl.
    destruct (del_result fault now n k w) as [Hres _].
    destruct (del fault now n k w) as [r w1]. simpl in Hres. subst r.
    by destruct fault, (target n w).
Qed.

Lemma X11_witness :
  (setupDeleteRoute_cb None 8 (Some "s1:never-existed") two_stores).1 = Returned tt ∧
  setupCreateRoute_cb None 8
    {| body_name := Some "s1"; body_key := None; body_value := Some "v" |} two_stores =
    (Thrown (HttpExn {| status := 404; message := "Body invalid!" |}), two_stores).
Proof.
  destruct (X11_create_delete_status None 8 "s1" "never-existed" "" two_stores)
    as (Hbody & _ & Hdel).
  split.
  - change "s1:never-existed" with ("s1" +:+ ":" +:+ "never-existed").
    rewrite (Hdel eq_refl eq_refl). reflexivity.
  - apply Hbody. right. by left.
Defined.

(** X12. In [src/main.ts] the create route answers the key alone and the read
    route takes the key whole, with the store from the query string: a
    create that succeeds reads back through the read route, whatever
    characters the key holds, separators included. *)
Theorem X12_main_created_key_reads_back
    (fault : option DbError) (t1 t2 : Z) (n k v id : string) (w w' : World)
    (query : gmap string MainTs.QueryValue) :
  MainTs.setupCreateRoute_cb fault t1
    {| body_name := Some n; body_key := Some k; body_value := Some v |} w =
    (Returned id, w') →
  query !! MainTs.QRY_STRING_STORE = Some (MainTs.QString n) →
  id = k ∧
  (MainTs.setupReadRoute_cb None t2 (Some id) (Some query) w').1 = Returned v.
Proof.
  unfold MainTs.setupCreateRoute_cb. simpl.
  pose proof (write_then_get fault t1 t2 n k v w) as Hrt.
  destruct (write fault t1 n k v w) as [[[|]|e] w1]; simpl in *;
    intros [= <- <-] Hq.
  split; [done|]. specialize (Hrt eq_refl).
  unfold MainTs.setupReadRoute_cb. simpl. rewrite Hq.
  destruct (get None t2 n k w1) as [[[x|]|e] w2]; simpl in *; by simplify_eq.
Qed.

Lemma X12_witness :
  let w := constructor "/var/db" "10" (Num 10) ∅ true in
  let r := MainTs.setupCreateRoute_cb None 5
             {| body_name := Some "s1"; body_key := Some "a:b"; body_value := Some "v1" |}
             w in
  (MainTs.setupReadRoute_cb None 6 (Some "a:b")
     (Some {[ "store" := MainTs.QString "s1" ]}) r.2).1 = Returned "v1".
Proof.
  intros w r.
  destruct (X12_main_created_key_reads_back None 5 6 "s1" "a:b" "v1" "a:b" w r.2
              {[ "store" := MainTs.QString "s1" ]}) as [_ Hread].
  - reflexivity.
  - apply lookup_singleton_eq.
  - exact Hread.
Defined.

(** ** Edges of the lifecycle *)

(** X13. [start()] keeps only the last timer it armed. Called twice on an
    engine whose interval is not zero, it arms two timers; [stop()] then
    disarms the second only, and the first goes on running the sweep
    whenever it fires. *)
Theorem X13_second_start_leaks_timer
    (closeFault : nat → option DbError) (w : World) :
  JsNumber.strict_ne (_keepOpenInterval w) (Num 0) = true →
  let t1 := length (intervals w) in
  let w' := (stop closeFault (start (start w).2).2).2 in
  intervals w' !! t1 = Some (Some (_keepOpenInterval w)) ∧
  intervals w' !! S t1 = Some None ∧
  ∀ closeFault' now,
    perform (TimerFires t1 closeFault' now) w' = (checkStorage closeFault' now w').2.
Proof.
  intros Hne t1 w'.
  assert (Hiv : intervals w' =
            <[S t1 := None]> ((intervals w ++ [Some (_keepOpenInterval w)]) ++
                              [Some (_keepOpenInterval w)])).
  { subst w'. destruct (stop_registry closeFault (start (start w).2).2) as (_ & _ & ->).
    unfold start, setInterval. rewrite Hne. simpl. rewrite Hne. simpl.
    rewrite length_app. simpl. subst t1. by replace (length (intervals w) + 1) with
      (S (length (intervals w))) by lia. }
  assert (H1 : intervals w' !! t1 = Some (Some (_keepOpenInterval w))).
  { rewrite Hiv, list_lookup_insert_ne by lia.
    rewrite lookup_app_l by (rewrite length_app; simpl; lia).
    by apply list_lookup_middle. }
  split; [done|]. split.
  - rewrite Hiv. apply list_lookup_insert_eq. rewrite !length_app. simpl. lia.
  - intros closeFault' now. simpl. by rewrite H1.
Qed.

Lemma X13_witness :
  let w' := (stop no_fault (start (start two_stores).2).2).2 in
  intervals w' !! 0%nat = Some (Some (Num 10000)) ∧ intervals w' !! 1%nat = Some None.
Proof.
  intros w'.
  destruct (X13_second_start_leaks_timer no_fault two_stores eq_refl) as (H0 & H1 & _).
  split; [exact H0 | exact H1].
Defined.

Lemma select_closed_NaN now vs : select_closed now NaN vs = [].
Proof. by apply select_closed_none. Qed.

(** X14. An interval that is not a number ([KEEP_OPEN_INTERVAL] did not
    parse) is not zero, so [start()] arms the sweep; but no idle time exceeds
    it, so every sweep returns at once and closes nothing: the stores stay
    open until [stop()]. *)
Theorem X14_NaN_interval_never_evicts (w : World) :
  _keepOpenInterval w = NaN →
  intervals (start w).2 = intervals w ++ [Some NaN] ∧
  ∀ closeFault now, checkStorage closeFault now w = (Returned tt, w).
Proof.
  intros Hk. split.
  - unfold start, setInterval. by rewrite Hk.
  - intros closeFault now. unfold checkStorage. by rewrite Hk, select_closed_NaN.
Qed.

Lemma X14_witness :
  let w := run [CallWrite None 5 "s1" "k1" "v1"]
             (constructor "/var/db" "ten" NaN ∅ true) in
  checkStorage no_fault 3155760000000 w = (Returned tt, w).
Proof.
  intros w. by destruct (X14_NaN_interval_never_evicts w eq_refl) as [_ Hsweep].
Defined.

Lemma get_all_None_nil {V} (m : list (string * V)) :
  (∀ k, JsMap.get k m = None) → m = [].
Proof.
  destruct m as [|[k v] m]; [done|]. intros H. specialize (H k).
  simpl in H. by rewrite decide_True in H.
Qed.

(** X15. With a negative interval every store that was not accessed in the
    future is idle: a sweep in which no close fails closes them all and
    leaves the registry empty, however recently they were used. *)
Theorem X15_negative_interval_evicts_all
    (closeFault : nat → option DbError) (now T : Z) (w : World) :
  wf w →
  _keepOpenInterval w = Num T → (T < 0)%Z →
  (∀ k v, JsMap.get k (_stores w) = Some v → (lastAccessed v ≤ now)%Z) →
  (∀ h, closeFault h = None) →
  (checkStorage closeFault now w).1 = Returned tt ∧
  _stores (checkStorage closeFault now w).2 = [] ∧
  closes (log (checkStorage closeFault now w).2) = closes (log w) + length (_stores w).
Proof.
  intros Hwf Hk HT Hpast Hok.
  assert (Hall : select_closed now (_keepOpenInterval w) (JsMap.values (_stores w)) =
                 JsMap.values (_stores w)).
  { assert (Hidle : ∀ v, v ∈ JsMap.values (_stores w) →
              idle now (_keepOpenInterval w) v = true).
    { intros v Hv%(wf_value_get _ _ Hwf). rewrite Hk. apply idle_Num.
      specialize (Hpast _ _ Hv). lia. }
    revert Hidle. generalize (JsMap.values (_stores w)).
    induction l as [|d l IH]; simpl; [done|]. intros Hidle.
    rewrite (Hidle d) by apply list_elem_of_here.
    f_equal. apply IH. intros v ?. apply Hidle. by apply list_elem_of_further. }
  unfold checkStorage. rewrite Hall.
  destruct (close_loop_eq closeFault (JsMap.values (_stores w)) w)
    as (Hr & Hst & _ & Hlog & _).
  cbv zeta in *.
  destruct (closed_ok_all closeFault (JsMap.values (_stores w))) as [Hcl Hnone];
    [by intros; apply Hok|].
  rewrite Hnone, Hcl in *. split; [done|]. split.
  - apply get_all_None_nil. intros k. rewrite Hst, get_foldl_delete.
    case_decide as Hin; [done|].
    destruct (JsMap.get k (_stores w)) as [v|] eqn:Hg; [|done].
    exfalso. apply Hin. destruct (wf_get_value _ _ _ Hwf Hg) as [Hv <-].
    by apply list_elem_of_fmap_2.
  - rewrite Hlog, app_nil_r. unfold closes at 1. rewrite count_app.
    fold (closes (log w)).
    fold (closes (close_events "Closing storage (%s)" (JsMap.values (_stores w)))).
    rewrite closes_close_events. unfold JsMap.values. by rewrite length_fmap.
Qed.

Lemma X15_witness :
  let w := run [CallWrite None 5 "s1" "k1" "v1"; CallWrite None 6 "s2" "k2" "v2"]
             (constructor "/var/db" "-1" (Num (-1)) ∅ true) in
  _stores (checkStorage no_fault 6 w).2 = [].
Proof.
  intros w.
  destruct (X15_negative_interval_evicts_all no_fault 6 (-1000) w) as (_ & Hempty & _).
  - apply run_wf, constructor_wf.
  - reflexivity.
  - lia.
  - intros k v Hg.
    destruct (decide (k = "s1")) as [->|?]; [by injection Hg as <-|].
    destruct (decide (k = "s2")) as [->|?]; [by injection Hg as <-|].
    simpl in Hg. by rewrite !decide_False in Hg.
  - reflexivity.
  - exact Hempty.
Defined.

Lemma perform_handle_kept a w h hd :
  handles w !! h = Some hd →
  ∃ hd', handles (perform a w) !! h = Some hd' ∧
         location hd' = location hd ∧
         (isOpen hd = false → isOpen hd' = false).
Proof.
  intros Hl.
  assert (Hclose : ∀ (ds : list StoreDetails) w',
    handles w' = foldl (λ hs d, alter closeH (db d) hs) (handles w) ds →
    ∃ hd', handles w' !! h = Some hd' ∧ location hd' = location hd ∧
           (isOpen hd = false → isOpen hd' = false)).
  { intros ds w' ->. rewrite lookup_foldl_close, Hl.
    case_decide; simpl; eauto. }
  destruct (crud_name a) as [n|] eqn:Ha.
  - destruct (crud_registry a n w Ha) as (now & _ & ->).
    exists hd. split; [by apply getStore_handles | done].
  - destruct a as [| | | |closeFault|t closeFault now]; try done; simpl.
    + exists hd. split; [|done]. unfold start, setInterval. by case_match.
    + destruct (stop_registry closeFault w) as (_ & Hh & _). by eapply Hclose.
    + repeat case_match; eauto.
      destruct (sweep_registry closeFault now w) as (_ & Hh & _). by eapply Hclose.
Qed.

(** X16. The table of handles only grows: whatever is called and whatever
    timer fires, a handle keeps its directory, and a handle that is closed
    stays closed. A store that was evicted is served again through a new
    handle, never through the old one. *)
Theorem X16_closed_handles_stay_closed
    (acts : list Action) (w : World) (h : nat) (hd : Handle) :
  handles w !! h = Some hd →
  ∃ hd', handles (run acts w) !! h = Some hd' ∧
         location hd' = location hd ∧
         (isOpen hd = false → isOpen hd' = false).
Proof.
  revert w hd. induction acts as [|a acts IH]; intros w hd Hl; simpl.
  - eauto.
  - destruct (perform_handle_kept a w h hd Hl) as (hd1 & Hl1 & Hloc1 & Hcl1).
    destruct (IH _ _ Hl1) as (hd2 & Hl2 & Hloc2 & Hcl2).
    exists hd2. split; [done|]. split; [congruence | auto].
Qed.

(** Handle 0 of ["s1"], closed by the sweep, is still closed after ["s1"] has
    been accessed again: the store is then on handle 2. *)
Lemma X16_witness :
  let w := (checkStorage no_fault 20000 two_stores).2 in
  ∃ hd', handles (run [CallGet None 20001 "s1" "k1"] w) !! 0%nat = Some hd' ∧
         location hd' = "/var/db/s1" ∧ isOpen hd' = false.
Proof.
  intros w.
  destruct (X16_closed_handles_stay_closed [CallGet None 20001 "s1" "k1"] w 0
              {| location := "/var/db/s1"; isOpen := false |} eq_refl)
    as (hd' & Hl & Hloc & Hcl).
  exists hd'. split; [exact Hl|]. split; [exact Hloc | by apply Hcl].
Defined.
